(** * Tic-Tac-Toe-AI: the game model and the minimax bot of [main.py]

    The Python program keeps the board as a list of three row lists of
    strings; a cell holds ['X'], ['O'] or the decimal text of its box
    number.  Row lists are mutable objects that can be aliased, so they live
    in a store and a board is the list of the addresses of its rows.  Every
    method is a computation in a state-and-exception monad over that store
    and the fields of the game object. *)

From Stdlib Require Import ZArith String List Bool Lia DecimalString.
From stdpp Require Import base list.
Import ListNotations.
Local Open Scope string_scope.
Local Open Scope list_scope.
Local Open Scope Z_scope.

(** ** Python values and control *)

Inductive exn : Type :=
| ValueError (msg : string)
| IndexError
| TypeError
| EOFError.

(** [NoResult] is not a Python outcome: the model gives no answer there
    (fuel exhausted, or a reference to no object). *)
Inductive result (A : Type) : Type :=
| Ok (a : A)
| Raise (e : exn)
| NoResult.
Arguments Ok {A} a.
Arguments Raise {A} e.
Arguments NoResult {A}.

(** The address of a row object in the store. *)
Abbreviation loc := nat.

(** The fields of the one [Game] object: [self.board] (the outer list, which
    no code mutates: only its rows are written) and [self.turn]. *)
Record GameObj : Type := mkGame { board : list loc; turn : Z }.

(** The store of row objects, and the game object. *)
Record World : Type := mkWorld { rows : list (list string); game : GameObj }.

(** A computation: it ends on a result and leaves a world, also when it
    raises. *)
Definition Py (A : Type) : Type := World -> result A * World.

Definition ret {A} (a : A) : Py A := fun w => (Ok a, w).

Definition bind {A B} (m : Py A) (f : A -> Py B) : Py B :=
  fun w =>
    match m w with
    | (Ok a, w') => f a w'
    | (Raise e, w') => (Raise e, w')
    | (NoResult, w') => (NoResult, w')
    end.

Definition raise {A} (e : exn) : Py A := fun w => (Raise e, w).
Definition no_result {A} : Py A := fun w => (NoResult, w).
Definition lift {A} (r : result A) : Py A := fun w => (r, w).

Declare Scope py_scope.
Delimit Scope py_scope with py.
Notation "x <- m ;; k" := (bind m (fun x => k))
  (at level 100, m at next level, right associativity) : py_scope.
Notation "m ;;; k" := (bind m (fun _ => k))
  (at level 100, right associativity) : py_scope.
Local Open Scope py_scope.

(** [for x in l: acc = body(acc, x)] *)
Fixpoint for_each {A S} (l : list A) (body : S -> A -> Py S) (acc : S) : Py S :=
  match l with
  | [] => ret acc
  | x :: l' => acc' <- body acc x ;; for_each l' body acc'
  end.

(** [[f(x) for x in l]] *)
Fixpoint comprehension {A B} (f : A -> Py B) (l : list A) : Py (list B) :=
  match l with
  | [] => ret []
  | x :: l' => y <- f x ;; ys <- comprehension f l' ;; ret (y :: ys)
  end.

(** [range(n)] *)
Definition range (n : nat) : list Z := map Z.of_nat (seq 0 n).

(** [str(n)] for an int. *)
Definition str (n : Z) : string := NilZero.string_of_int (Z.to_int n).

(** Index of a Python list: a negative index counts from the end. *)
Definition index_of (len : nat) (i : Z) : option nat :=
  let k := if i <? 0 then i + Z.of_nat len else i in
  if (0 <=? k) && (k <? Z.of_nat len) then Some (Z.to_nat k) else None.

(** [l[i]] *)
Definition getitem {A} (l : list A) (i : Z) : result A :=
  match index_of (length l) i with
  | Some n => match l !! n with Some x => Ok x | None => Raise IndexError end
  | None => Raise IndexError
  end.

(** [l[i] = v], giving the updated list. *)
Definition setitem {A} (l : list A) (i : Z) (v : A) : result (list A) :=
  match index_of (length l) i with
  | Some n => Ok (<[n := v]> l)
  | None => Raise IndexError
  end.

(** ** The store *)

Definition load (r : loc) : Py (list string) :=
  fun w => match rows w !! r with
           | Some row => (Ok row, w)
           | None => (NoResult, w)
           end.

Definition store (r : loc) (row : list string) : Py unit :=
  fun w => match rows w !! r with
           | Some _ => (Ok tt, mkWorld (<[r := row]> (rows w)) (game w))
           | None => (NoResult, w)
           end.

(** A new list object. *)
Definition alloc (row : list string) : Py loc :=
  fun w => (Ok (length (rows w)), mkWorld (rows w ++ [row]) (game w)).

Definition get_game : Py GameObj := fun w => (Ok (game w), w).
Definition set_game (g : GameObj) : Py unit := fun w => (Ok tt, mkWorld (rows w) g).

(** [board[i][j]] *)
Definition getitem2 (b : list loc) (i j : Z) : Py string :=
  r <- lift (getitem b i) ;;
  row <- load r ;;
  lift (getitem row j).

(** [board[i][j] = v] *)
Definition setitem2 (b : list loc) (i j : Z) (v : string) : Py unit :=
  r <- lift (getitem b i) ;;
  row <- load r ;;
  row' <- lift (setitem row j v) ;;
  store r row'.

(** [c in ['X', 'O']] *)
Definition in_XO (c : string) : bool := String.eqb c "X" || String.eqb c "O".

(** [board[p] == board[q] == board[r]]: the third cell is read only when the
    first two are equal. *)
Definition eq3 (b : list loc) (p q r : Z * Z) : Py bool :=
  x <- getitem2 b (fst p) (snd p) ;;
  y <- getitem2 b (fst q) (snd q) ;;
  if String.eqb x y then
    z <- getitem2 b (fst r) (snd r) ;; ret (String.eqb y z)
  else ret false.

(** ** class Game *)

Module Game.

Definition get_box_number (row col : Z) : Z := row * 3 + col + 1.

(** [self.board] is built of three new rows; [self.turn = 0]. *)
Definition __init__ : Py unit :=
  b <- comprehension
         (fun i => alloc (map (fun j => str (get_box_number i j)) (range 3)))
         (range 3) ;;
  set_game (mkGame b 0).

(** The comprehension over [i] and [j], which keeps the cells that are not
    in [['X', 'O']]. *)
Definition get_empty_box_positions (b : list loc) : Py (list (Z * Z)) :=
  for_each (range 3)
    (fun acc i =>
       for_each (range 3)
         (fun acc j =>
            c <- getitem2 b i j ;;
            ret (if negb (in_XO c) then acc ++ [(i, j)] else acc))
         acc)
    [].

(** The loop [for i in range(3)] of [get_winner]: row [i], then column
    [i]; [None] when it runs to its end. *)
Fixpoint get_winner_loop (b : list loc) (ixs : list Z) : Py (option string) :=
  match ixs with
  | [] => ret None
  | i :: ixs' =>
      r <- eq3 b (i, 0) (i, 1) (i, 2) ;;
      if r then c <- getitem2 b i 0 ;; ret (Some c)
      else
        c <- eq3 b (0, i) (1, i) (2, i) ;;
        if c then c <- getitem2 b 0 i ;; ret (Some c)
        else get_winner_loop b ixs'
  end.

(** After the loop, the main diagonal and then the anti-diagonal. *)
Definition get_winner : Py (option string) :=
  g <- get_game ;;
  found <- get_winner_loop (board g) (range 3) ;;
  match found with
  | Some s => ret (Some s)
  | None =>
      d <- eq3 (board g) (0, 0) (1, 1) (2, 2) ;;
      if d then c <- getitem2 (board g) 0 0 ;; ret (Some c)
      else
        a <- eq3 (board g) (0, 2) (1, 1) (2, 0) ;;
        if a then c <- getitem2 (board g) 0 2 ;; ret (Some c)
        else ret None
  end.

(** [move] returns the winner's mark, ['Tie'] or [None]; both errors are
    raised before anything is written. *)
Definition move (box : Z) : Py (option string) :=
  if (box <? 1) || (box >? 9) then
    raise (ValueError "Box must be between 1 and 9")
  else
    let row := (box - 1) / 3 in
    let col := (box - 1) mod 3 in
    g <- get_game ;;
    c <- getitem2 (board g) row col ;;
    if in_XO c then raise (ValueError "Box is already filled")
    else
      setitem2 (board g) row col (if turn g mod 2 =? 0 then "X" else "O") ;;;
      set_game (mkGame (board g) (turn g + 1)) ;;;
      winner <- get_winner ;;
      match winner with
      | Some s => ret (Some s)
      | None =>
          g' <- get_game ;;
          if turn g' =? 9 then ret (Some "Tie") else ret None
      end.

End Game.

(** ** class Bot *)

(** A bot object: [self.symbol]; [self.game] is the game of the world. *)
Record BotObj : Type := mkBot { symbol : string }.

Module Bot.
Definition __init__ (goes_first : bool) : BotObj :=
  mkBot (if goes_first then "X" else "O").
End Bot.

(** ** class RandomBot *)

(** [random.choice(seq)]: the element at the index the generator draws below
    [len(seq)], which [draw] stands for; it raises [IndexError] on an empty
    sequence. *)
Definition random_choice {A} (draw : nat) (seq : list A) : result A :=
  match seq with
  | [] => Raise IndexError
  | _ :: _ =>
      match seq !! (draw mod length seq)%nat with
      | Some x => Ok x
      | None => Raise IndexError
      end
  end.

Module RandomBot.

Definition __init__ (goes_first : bool) : BotObj := Bot.__init__ goes_first.

(** [move] returns the box number of an empty cell chosen at random. *)
Definition move (draw : nat) (self : BotObj) : Py Z :=
  g <- get_game ;;
  empty_boxes <- Game.get_empty_box_positions (board g) ;;
  p <- lift (random_choice draw empty_boxes) ;;
  ret (Game.get_box_number (fst p) (snd p)).

End RandomBot.

(** [max(scores)] and [min(scores)] of a list of ints. *)
Definition py_max (l : list Z) : result Z :=
  match l with
  | [] => Raise (ValueError "max() arg is an empty sequence")
  | x :: l' => Ok (fold_left Z.max l' x)
  end.

Definition py_min (l : list Z) : result Z :=
  match l with
  | [] => Raise (ValueError "min() arg is an empty sequence")
  | x :: l' => Ok (fold_left Z.min l' x)
  end.

(** [scores[key] = value] on a dict, kept in insertion order: an existing key
    keeps its place. *)
Fixpoint dict_set (d : list (Z * Z)) (key value : Z) : list (Z * Z) :=
  match d with
  | [] => [(key, value)]
  | (k, v) :: d' =>
      if k =? key then (k, value) :: d' else (k, v) :: dict_set d' key value
  end.

(** [value > max_score], where [None] stands for [-float('inf')]. *)
Definition gt_score (value : Z) (max_score : option Z) : bool :=
  match max_score with
  | None => true
  | Some m => value >? m
  end.

(** ** class MinimaxBot *)

Module MinimaxBot.

Definition __init__ (goes_first : bool) : BotObj := Bot.__init__ goes_first.

(** ['X' if symbol == 'O' else 'O'] *)
Definition other (s : string) : string := if String.eqb s "O" then "X" else "O".

(** [10 if c == self.symbol else -10] *)
Definition verdict (self : BotObj) (c : string) : Z :=
  if String.eqb c (symbol self) then 10 else -10.

(** The loop [for i in range(3)] of [_evaluate]. *)
Fixpoint _evaluate_loop (self : BotObj) (b : list loc) (ixs : list Z)
  : Py (option Z) :=
  match ixs with
  | [] => ret None
  | i :: ixs' =>
      r <- eq3 b (i, 0) (i, 1) (i, 2) ;;
      if r then c <- getitem2 b i 0 ;; ret (Some (verdict self c))
      else
        c <- eq3 b (0, i) (1, i) (2, i) ;;
        if c then c <- getitem2 b 0 i ;; ret (Some (verdict self c))
        else _evaluate_loop self b ixs'
  end.

(** The score of a finished board, [None] when the game goes on; the last
    line is [all(cell in ['X', 'O'] for row in board for cell in row)]. *)
Definition _evaluate (self : BotObj) (b : list loc) : Py (option Z) :=
  found <- _evaluate_loop self b (range 3) ;;
  match found with
  | Some s => ret (Some s)
  | None =>
      d <- eq3 b (0, 0) (1, 1) (2, 2) ;;
      if d then c <- getitem2 b 0 0 ;; ret (Some (verdict self c))
      else
        a <- eq3 b (0, 2) (1, 1) (2, 0) ;;
        if a then c <- getitem2 b 0 2 ;; ret (Some (verdict self c))
        else
          cells <- comprehension load b ;;
          ret (if forallb (forallb in_XO) cells then Some 0 else None)
  end.

(** The recursion is as deep as there are empty cells; [fuel] bounds it. *)
Fixpoint _minimax (fuel : nat) (self : BotObj) (b : list loc) (sym : string)
  : Py Z :=
  match fuel with
  | O => no_result
  | S fuel' =>
      score <- _evaluate self b ;;
      match score with
      | Some s => ret s
      | None =>
          empty_boxes <- Game.get_empty_box_positions b ;;
          scores <- for_each empty_boxes
                      (fun scores '(i, j) =>
                         let box := Game.get_box_number i j in
                         setitem2 b i j sym ;;;
                         s <- _minimax fuel' self b (other sym) ;;
                         setitem2 b i j (str box) ;;;
                         ret (scores ++ [s]))
                      [] ;;
          lift (if String.eqb sym (symbol self)
                then py_max scores else py_min scores)
      end
  end.

(** One round of the scan of [scores.items()]. *)
Definition pick_step (best : option Z * option Z) (item : Z * Z)
  : option Z * option Z :=
  let '(box, max_score) := best in
  let '(key, value) := item in
  if gt_score value max_score then (Some key, Some value)
  else (box, max_score).

(** The scan of [scores.items()] for the first strictly greatest value. *)
Definition pick (scores : list (Z * Z)) : option Z :=
  fst (fold_left pick_step scores (None, None)).

(** [move] scores every empty cell on a copy of the board, made of new rows,
    and returns a box number, or [None] on a full board. *)
Definition move (fuel : nat) (self : BotObj) : Py (option Z) :=
  g <- get_game ;;
  b <- comprehension (fun r => row <- load r ;; alloc row) (board g) ;;
  g <- get_game ;;
  empty_boxes <- Game.get_empty_box_positions (board g) ;;
  scores <- for_each empty_boxes
              (fun scores '(i, j) =>
                 let box := Game.get_box_number i j in
                 setitem2 b i j (symbol self) ;;;
                 s <- _minimax fuel self b (other (symbol self)) ;;
                 setitem2 b i j (str box) ;;;
                 ret (dict_set scores box s))
              [] ;;
  ret (pick scores).

End MinimaxBot.

(** ** The driver

    [game_loop] of [main.py] with the minimax bot (the answer [y] to its
    question), without the display: the human's boxes are the integers of
    [inputs] ([input()] raises [EOFError] at the end of the input), and the
    loop gives back the [winner] it stops on.  An error of [game.move] is
    not caught.  [n] bounds the number of iterations of [while True]. *)
Fixpoint game_loop_while (n fuel : nat) (bot : BotObj) (human_first_mod : Z)
  (inputs : list Z) : Py string :=
  match n with
  | O => no_result
  | S n' =>
      g <- get_game ;;
      if turn g mod 2 =? human_first_mod then
        match inputs with
        | [] => raise EOFError
        | box :: rest =>
            winner <- Game.move box ;;
            match winner with
            | Some s => ret s
            | None => game_loop_while n' fuel bot human_first_mod rest
            end
        end
      else
        box <- MinimaxBot.move fuel bot ;;
        match box with
        | None => raise TypeError
        | Some box =>
            winner <- Game.move box ;;
            match winner with
            | Some s => ret s
            | None => game_loop_while n' fuel bot human_first_mod inputs
            end
        end
  end.

Definition game_loop (n fuel : nat) (human_goes_first : bool) (inputs : list Z)
  : Py string :=
  let human_first_mod := if human_goes_first then 0 else 1 in
  let bot := MinimaxBot.__init__ (negb human_goes_first) in
  game_loop_while n fuel bot human_first_mod inputs.

(** Two minimax bots on one game, as [game_loop] plays one: the bot that
    goes first moves on even turns, the other on odd turns. *)
Fixpoint self_play (n fuel : nat) (first second : BotObj) : Py string :=
  match n with
  | O => no_result
  | S n' =>
      g <- get_game ;;
      box <- MinimaxBot.move fuel (if turn g mod 2 =? 0 then first else second) ;;
      match box with
      | None => raise TypeError
      | Some box =>
          winner <- Game.move box ;;
          match winner with
          | Some s => ret s
          | None => self_play n' fuel first second
          end
      end
  end.

(** The world of a program that has built nothing yet. *)
Definition empty_world : World := mkWorld [] (mkGame [] 0).

(** * Views and specifications *)

(** The content of a board: its rows, as values. *)
Abbreviation grid := (list (list string)).

(** The cell [(i, j)] of a grid. *)
Definition cell (g : grid) (i j : Z) : string :=
  match g !! Z.to_nat i with
  | Some row => match row !! Z.to_nat j with Some c => c | None => "" end
  | None => ""
  end.

(** The grid with [v] in the cell [(i, j)]. *)
Definition put (g : grid) (i j : Z) (v : string) : grid :=
  match g !! Z.to_nat i with
  | Some row => <[Z.to_nat i := <[Z.to_nat j := v]> row]> g
  | None => g
  end.

(** The grid whose rows the store holds at the addresses [b]. *)
Fixpoint view (h : list (list string)) (b : list loc) : option grid :=
  match b with
  | [] => Some []
  | r :: b' =>
      match h !! r, view h b' with
      | Some row, Some g => Some (row :: g)
      | _, _ => None
      end
  end.

(** The cells in row-major order, as the two loops over [range(3)] of
    [get_empty_box_positions] visit them. *)
Definition positions : list (Z * Z) :=
  [(0, 0); (0, 1); (0, 2); (1, 0); (1, 1); (1, 2); (2, 0); (2, 1); (2, 2)].

(** The cell holds no mark. *)
Definition is_empty (g : grid) (p : Z * Z) : bool :=
  negb (in_XO (cell g (fst p) (snd p))).

(** What [get_empty_box_positions] answers on the grid [g]. *)
Definition empties (g : grid) : list (Z * Z) := List.filter (is_empty g) positions.

Definition count_empty (g : grid) : nat := length (empties g).

(** Three rows of three cells. *)
Definition shape3 (g : grid) : bool :=
  (length g =? 3)%nat && forallb (fun row => (length row =? 3)%nat) g.

(** The cell holds a mark or the text of its box number. *)
Definition cell_ok (g : grid) (p : Z * Z) : bool :=
  let c := cell g (fst p) (snd p) in
  in_XO c || String.eqb c (str (Game.get_box_number (fst p) (snd p))).

(** A board as the program writes it: three rows of three cells, each
    holding a mark or the text of its own box number. *)
Definition valid (g : grid) : bool := shape3 g && forallb (cell_ok g) positions.

(** No address occurs twice: the rows of a board are three objects. *)
Fixpoint distinct (l : list loc) : bool :=
  match l with
  | [] => true
  | r :: l' => negb (existsb (Nat.eqb r) l') && distinct l'
  end.

(** [b] is a board of the store [h] showing [g]. *)
Definition board_at (h : list (list string)) (b : list loc) (g : grid) : Prop :=
  distinct b = true /\ view h b = Some g /\ shape3 g = true.

(** A line: the positions of its three cells. *)
Definition line : Type := (Z * Z) * (Z * Z) * (Z * Z).

Definition row_line (i : Z) : line := ((i, 0), (i, 1), (i, 2)).
Definition col_line (i : Z) : line := ((0, i), (1, i), (2, i)).
Definition main_diagonal : line := ((0, 0), (1, 1), (2, 2)).
Definition anti_diagonal : line := ((0, 2), (1, 1), (2, 0)).

(** The lines in the order [get_winner] and [_evaluate] test them. *)
Definition scan_order : list line :=
  [row_line 0; col_line 0; row_line 1; col_line 1; row_line 2; col_line 2;
   main_diagonal; anti_diagonal].

Definition at_pos (g : grid) (p : Z * Z) : string := cell g (fst p) (snd p).

(** The three cells of the line are equal. *)
Definition uniform (g : grid) (l : line) : bool :=
  let '(p, q, r) := l in
  String.eqb (at_pos g p) (at_pos g q) && String.eqb (at_pos g q) (at_pos g r).

(** The content of the first uniform line in scan order. *)
Definition first_uniform (g : grid) : option string :=
  match find (uniform g) scan_order with
  | Some (p, _, _) => Some (at_pos g p)
  | None => None
  end.

(** Every cell holds a mark. *)
Definition full (g : grid) : bool := forallb (forallb in_XO) g.

(** What [get_winner] answers on the grid [g]. *)
Definition winner_of (g : grid) : option string := first_uniform g.

(** What [_evaluate] answers on the grid [g] for the bot [self]. *)
Definition evaluate_of (self : BotObj) (g : grid) : option Z :=
  match first_uniform g with
  | Some c => Some (MinimaxBot.verdict self c)
  | None => if full g then Some 0 else None
  end.

(** The greatest and the least element of a list that is not empty. *)
Definition maximum (l : list Z) : Z :=
  match l with
  | [] => 0
  | x :: l' => fold_left Z.max l' x
  end.

Definition minimum (l : list Z) : Z :=
  match l with
  | [] => 0
  | x :: l' => fold_left Z.min l' x
  end.

(** The grid after [sym] is played at [p]. *)
Definition place (g : grid) (p : Z * Z) (sym : string) : grid :=
  put g (fst p) (snd p) sym.

(** The minimax value of [g] for the bot [self] when [sym] is to move, for a
    grid with [n] empty cells. *)
Fixpoint score_of (n : nat) (self : BotObj) (g : grid) (sym : string) : Z :=
  match evaluate_of self g with
  | Some s => s
  | None =>
      match n with
      | O => 0
      | S n' =>
          let children :=
            map (fun p => score_of n' self (place g p sym) (MinimaxBot.other sym))
              (empties g) in
          if String.eqb sym (symbol self) then maximum children
          else minimum children
      end
  end.

(** The minimax value of [g]: what [_minimax] returns on it. *)
Definition minimax_value (self : BotObj) (g : grid) (sym : string) : Z :=
  score_of (count_empty g) self g sym.

(** The box number of a position. *)
Definition box_of (p : Z * Z) : Z := Game.get_box_number (fst p) (snd p).

(** The score the bot gives to playing at [p]. *)
Definition candidate (self : BotObj) (g : grid) (p : Z * Z) : Z :=
  minimax_value self (place g p (symbol self)) (MinimaxBot.other (symbol self)).

(** The [scores] dict of [move]: the empty cells in row-major order, each
    with its score. *)
Definition candidates (self : BotObj) (g : grid) : list (Z * Z) :=
  map (fun p => (box_of p, candidate self g p)) (empties g).

(** What [MinimaxBot.move] answers on the grid [g]. *)
Definition best_box (self : BotObj) (g : grid) : option Z :=
  MinimaxBot.pick (candidates self g).

(** The world after [move]: the copy of the board stays in the store. *)
Definition with_copy (w : World) (g : grid) : World :=
  mkWorld (rows w ++ g) (game w).

(** The row and the column of a box, as [Game.move] computes them. *)
Definition row_of (box : Z) : Z := (box - 1) / 3.
Definition col_of (box : Z) : Z := (box - 1) mod 3.

(** The mark of the player whose turn it is. *)
Definition mark_of_turn (t : Z) : string := if t mod 2 =? 0 then "X" else "O".

(** What [move] answers once the mark is written and the turn counted. *)
Definition outcome_of (g : grid) (t : Z) : option string :=
  match winner_of g with
  | Some s => Some s
  | None => if t =? 9 then Some "Tie" else None
  end.

(** The line holds three equal marks. *)
Definition complete (g : grid) (l : line) : bool :=
  uniform g l && in_XO (at_pos g (fst (fst l))).

(** The line holds three times the mark [s]. *)
Definition complete_with (g : grid) (l : line) (s : string) : Prop :=
  let '(p, q, r) := l in
  at_pos g p = s /\ at_pos g q = s /\ at_pos g r = s /\ (s = "X" \/ s = "O").

(** The mark of the first complete line in scan order. *)
Definition first_complete (g : grid) : option string :=
  match find (complete g) scan_order with
  | Some (p, _, _) => Some (at_pos g p)
  | None => None
  end.

(** The two errors of [Game.move]. *)
Definition InvalidBox : exn := ValueError "Box must be between 1 and 9".
Definition CellOccupied : exn := ValueError "Box is already filled".

(** The cell numbered [box] holds a mark. *)
Definition occupied (g : grid) (box : Z) : Prop :=
  exists i j, 0 <= i < 3 /\ 0 <= j < 3 /\ Game.get_box_number i j = box /\
              in_XO (cell g i j) = true.

(** The number of cells that hold a mark. *)
Definition count_marks (g : grid) : nat := length (List.filter in_XO (concat g)).

(** The state of a game in play: the board is as the program writes it and
    the turn counter counts its marks. *)
Definition in_play (w : World) (g : grid) : Prop :=
  board_at (rows w) (board (game w)) g /\ valid g = true /\
  Z.of_nat (count_marks g) = turn (game w).

(** The board of a new game. *)
Definition fresh_grid : grid :=
  [["1"; "2"; "3"]; ["4"; "5"; "6"]; ["7"; "8"; "9"]].

(** The calls [game.move(box)] for the boxes of [boxes], one after the other;
    a call that raises leaves the game to the next call as it is then. *)
Definition moves (boxes : list Z) (w : World) : World :=
  fold_left (fun w box => snd (Game.move box w)) boxes w.

(** The empty cells come in the order of their box numbers. *)
Inductive ascending : list (Z * Z) -> Prop :=
| asc_nil : ascending []
| asc_cons p l :
    (forall q, In q l -> box_of p < box_of q) -> ascending l -> ascending (p :: l).

(** A board with a line of each mark: row 0 holds X and row 1 holds O. *)
Definition two_lines_grid : grid :=
  [["X"; "X"; "X"]; ["O"; "O"; "O"]; ["7"; "8"; "9"]].

(** A game whose board shows [two_lines_grid]. *)
Definition two_lines_world : World := mkWorld two_lines_grid (mkGame [0; 1; 2]%nat 5).

(** [w'] differs from [w] at most in the rows of the board [b], which is
    still a board of three rows of three. *)
Definition kept (b : list loc) (w w' : World) : Prop :=
  game w' = game w /\ length (rows w') = length (rows w) /\
  (forall r, r ∉ b -> rows w' !! r = rows w !! r) /\
  exists g', board_at (rows w') b g'.

(** The effect of [Game.move] on the grid and the turn counter. *)
Definition move_of (box : Z) (g : grid) (t : Z) : exn + (option string * grid) :=
  if (box <? 1) || (box >? 9) then inl InvalidBox
  else if in_XO (cell g (row_of box) (col_of box)) then inl CellOccupied
  else
    let g' := put g (row_of box) (col_of box) (mark_of_turn t) in
    inr (outcome_of g' (t + 1), g').

(** [self_play] on the grid and the turn counter. *)
Fixpoint self_play_of (n : nat) (first second : BotObj) (g : grid) (t : Z)
  : result string :=
  match n with
  | O => NoResult
  | S n' =>
      match best_box (if t mod 2 =? 0 then first else second) g with
      | None => Raise TypeError
      | Some box =>
          match move_of box g t with
          | inl e => Raise e
          | inr (Some s, _) => Ok s
          | inr (None, g') => self_play_of n' first second g' (t + 1)
          end
      end
  end.

(** The outcomes that are no loss for the bot. *)
Definition fine (bot : BotObj) (s : string) : bool :=
  String.eqb s "Tie" || String.eqb s (symbol bot).

(** [game_loop_while] on the grid and the turn counter. *)
Fixpoint game_loop_of (n : nat) (bot : BotObj) (human_first_mod : Z)
  (inputs : list Z) (g : grid) (t : Z) : result string :=
  match n with
  | O => NoResult
  | S n' =>
      if t mod 2 =? human_first_mod then
        match inputs with
        | [] => Raise EOFError
        | box :: rest =>
            match move_of box g t with
            | inl e => Raise e
            | inr (Some s, _) => Ok s
            | inr (None, g') => game_loop_of n' bot human_first_mod rest g' (t + 1)
            end
        end
      else
        match best_box bot g with
        | None => Raise TypeError
        | Some box =>
            match move_of box g t with
            | inl e => Raise e
            | inr (Some s, _) => Ok s
            | inr (None, g') => game_loop_of n' bot human_first_mod inputs g' (t + 1)
            end
        end
  end.

(** Every game of at most [k] moves from the grid [g] at turn [t], whatever
    boxes the human enters, ends on an outcome that is [fine] for the bot. *)
Fixpoint never_loses (k : nat) (bot : BotObj) (human_first_mod : Z)
  (g : grid) (t : Z) : bool :=
  match k with
  | O => false
  | S k' =>
      let after box :=
        match move_of box g t with
        | inl _ => true
        | inr (Some s, _) => fine bot s
        | inr (None, g') => never_loses k' bot human_first_mod g' (t + 1)
        end in
      if t mod 2 =? human_first_mod then
        forallb after [1; 2; 3; 4; 5; 6; 7; 8; 9]
      else
        match best_box bot g with
        | None => true
        | Some box => after box
        end
  end.

(** A new game in the empty store. *)
Definition new_world : World := snd (Game.__init__ empty_world).

(** The same game after X has taken the centre. *)
Definition centre_world : World := snd (Game.move 5 new_world).

(** The grid of [centre_world]. *)
Definition centre_grid : grid :=
  [["1"; "2"; "3"]; ["4"; "X"; "6"]; ["7"; "8"; "9"]].

(** ** Further views: both bots in the loop, counts, games not over *)

(** The number of cells that hold the mark [s]. *)
Definition count_of (s : string) (g : grid) : nat :=
  length (List.filter (String.eqb s) (concat g)).

(** A game in which X is one move from completing row 0. *)
Definition before_win_world : World := moves [1; 4; 2; 5] new_world.

(** The grid of [before_win_world]. *)
Definition before_win_grid : grid :=
  [["X"; "X"; "3"]; ["O"; "O"; "6"]; ["7"; "8"; "9"]].

(** What an outcome is worth to the bot: as [_evaluate] scores the boards. *)
Definition payoff (bot : BotObj) (s : string) : Z :=
  if String.eqb s (symbol bot) then 10
  else if String.eqb s "Tie" then 0 else -10.

(** A game that is not over: the board is as the program writes it, the
    turn counter counts its marks, no line is complete and a cell is empty. *)
Definition game_on (g : grid) (t : Z) : Prop :=
  valid g = true /\ Z.of_nat (count_marks g) = t /\
  first_complete g = None /\ t < 9.

(** The bot has the symbol of the turns [game_loop] gives it. *)
Definition seated (bot : BotObj) (human_first_mod : Z) : Prop :=
  (symbol bot = "X" /\ human_first_mod = 1) \/
  (symbol bot = "O" /\ human_first_mod = 0).

(** ** The driver with either bot

    [game_loop] of [main.py] for either answer to its question: [smart]
    chooses the minimax bot, otherwise the random bot plays, with the draw
    [draws k] in the round that leaves [k] rounds.  An input that is no
    integer ([None]) makes [int] raise [ValueError], which the loop catches:
    it asks again in the next round. *)
Definition bot_move (smart : bool) (fuel draw : nat) (bot : BotObj)
  : Py (option Z) :=
  if smart then MinimaxBot.move fuel bot
  else box <- RandomBot.move draw bot ;; ret (Some box).

Fixpoint game_loop_rounds (n fuel : nat) (smart : bool) (bot : BotObj)
  (human_first_mod : Z) (inputs : list (option Z)) (draws : nat -> nat)
  : Py string :=
  match n with
  | O => no_result
  | S n' =>
      g <- get_game ;;
      if turn g mod 2 =? human_first_mod then
        match inputs with
        | [] => raise EOFError
        | None :: rest =>
            game_loop_rounds n' fuel smart bot human_first_mod rest draws
        | Some box :: rest =>
            winner <- Game.move box ;;
            match winner with
            | Some s => ret s
            | None =>
                game_loop_rounds n' fuel smart bot human_first_mod rest draws
            end
        end
      else
        box <- bot_move smart fuel (draws n') bot ;;
        match box with
        | None => raise TypeError
        | Some box =>
            winner <- Game.move box ;;
            match winner with
            | Some s => ret s
            | None =>
                game_loop_rounds n' fuel smart bot human_first_mod inputs draws
            end
        end
  end.

(** The inputs that are no integers. *)
Definition unreadable (inputs : list (option Z)) : nat :=
  length (List.filter (fun x => match x with None => true | Some _ => false end)
            inputs).

(** The inputs that are integers, in their order. *)
Definition readable (inputs : list (option Z)) : list Z :=
  flat_map (fun x => match x with Some box => [box] | None => [] end) inputs.
(** The marks of a game: X has made every second move, starting with the
    first. *)
Definition marks_by_turn (g : grid) (t : Z) : Prop :=
  Z.of_nat (count_of "X" g) = (t + 1) / 2 /\ Z.of_nat (count_of "O" g) = t / 2.

(** * Running the primitives on a board of the store *)

Lemma bind_ok {A B} (m : Py A) (f : A -> Py B) w a w' :
  m w = (Ok a, w') -> bind m f w = f a w'.
Proof. intros H. unfold bind. now rewrite H. Qed.

Lemma bind_raise {A B} (m : Py A) (f : A -> Py B) w e w' :
  m w = (Raise e, w') -> bind m f w = (Raise e, w').
Proof. intros H. unfold bind. now rewrite H. Qed.

Lemma bind_get_game {B} (f : GameObj -> Py B) w :
  bind get_game f w = f (game w) w.
Proof. reflexivity. Qed.

Lemma board_at_inv h b g :
  board_at h b g ->
  exists r0 r1 r2 a0 a1 a2 b0 b1 b2 c0 c1 c2,
    b = [r0; r1; r2] /\
    g = [[a0; a1; a2]; [b0; b1; b2]; [c0; c1; c2]] /\
    h !! r0 = Some [a0; a1; a2] /\
    h !! r1 = Some [b0; b1; b2] /\
    h !! r2 = Some [c0; c1; c2] /\
    r0 <> r1 /\ r0 <> r2 /\ r1 <> r2.
Proof.
  intros (Hd & Hv & Hs).
  unfold shape3 in Hs. apply andb_true_iff in Hs as [Hl Hr].
  apply Nat.eqb_eq in Hl.
  destruct g as [|x [|y [|z [|]]]]; try discriminate.
  simpl in Hr.
  repeat (apply andb_true_iff in Hr as [?%Nat.eqb_eq Hr]).
  destruct x as [|a0 [|a1 [|a2 [|]]]]; try discriminate.
  destruct y as [|b0 [|b1 [|b2 [|]]]]; try discriminate.
  destruct z as [|c0 [|c1 [|c2 [|]]]]; try discriminate.
  destruct b as [|r0 b]; [discriminate|].
  simpl in Hv. destruct (h !! r0) eqn:E0; [|discriminate].
  destruct b as [|r1 b]; [discriminate|].
  simpl in Hv. destruct (h !! r1) eqn:E1; [|discriminate].
  destruct b as [|r2 b]; [discriminate|].
  simpl in Hv. destruct (h !! r2) eqn:E2; [|discriminate].
  destruct b as [|r3 b].
  2:{ simpl in Hv. destruct (h !! r3); [|discriminate].
      destruct (view h b); discriminate. }
  simpl in Hv. injection Hv as -> -> ->.
  simpl in Hd. rewrite !orb_false_r in Hd.
  apply andb_true_iff in Hd as [H01 Hd].
  apply andb_true_iff in Hd as [H12 _].
  apply negb_true_iff, orb_false_iff in H01 as [H01 H02].
  apply negb_true_iff in H12.
  apply Nat.eqb_neq in H01, H02, H12.
  exists r0, r1, r2, a0, a1, a2, b0, b1, b2, c0, c1, c2.
  repeat split; auto.
Qed.

Ltac three i :=
  let H := fresh in
  assert (H : i = 0 \/ i = 1 \/ i = 2) by lia;
  destruct H as [-> | [-> | ->]].

Ltac open_board H :=
  let r0 := fresh "r0" in let r1 := fresh "r1" in let r2 := fresh "r2" in
  let E0 := fresh "E0" in let E1 := fresh "E1" in let E2 := fresh "E2" in
  let N01 := fresh "N01" in let N02 := fresh "N02" in let N12 := fresh "N12" in
  destruct (board_at_inv _ _ _ H)
    as (r0 & r1 & r2 & ? & ? & ? & ? & ? & ? & ? & ? & ? &
        -> & -> & E0 & E1 & E2 & N01 & N02 & N12).

Lemma getitem2_at w b g i j :
  board_at (rows w) b g -> 0 <= i < 3 -> 0 <= j < 3 ->
  getitem2 b i j w = (Ok (cell g i j), w).
Proof.
  intros H Hi Hj. open_board H.
  three i; three j; unfold getitem2, bind, lift, load; simpl;
    rewrite ?E0, ?E1, ?E2; reflexivity.
Qed.

Ltac store_facts :=
  rewrite ?list_lookup_insert_eq by (eapply lookup_lt_Some; eassumption);
  rewrite ?list_lookup_insert_ne by congruence.

Lemma setitem2_at w b g i j v :
  board_at (rows w) b g -> 0 <= i < 3 -> 0 <= j < 3 ->
  exists w',
    setitem2 b i j v w = (Ok tt, w') /\
    board_at (rows w') b (put g i j v) /\
    game w' = game w /\
    length (rows w') = length (rows w) /\
    (forall r, r ∉ b -> rows w' !! r = rows w !! r) /\
    setitem2 b i j (cell g i j) w' = (Ok tt, w).
Proof.
  intros H Hi Hj. pose proof H as (Hd & _ & _). open_board H.
  destruct w as [h gm]. simpl in *.
  three i; three j; unfold setitem2, bind, lift, load, store; simpl;
    rewrite ?E0, ?E1, ?E2; simpl; rewrite ?E0, ?E1, ?E2; simpl;
    (eexists; split; [reflexivity|]); simpl.
  all: repeat split; auto.
  all: try (simpl; store_facts; rewrite ?E0, ?E1, ?E2; reflexivity).
  all: try apply length_insert.
  all: try (intros r Hr; apply list_lookup_insert_ne; intros ->; apply Hr;
            repeat constructor).
  all: store_facts; simpl; store_facts; unfold cell; simpl;
    rewrite list_insert_insert_eq, list_insert_id by assumption; reflexivity.
Qed.

(** ** Reading the lines and the empty cells *)

Lemma eq3_at w b g i1 j1 i2 j2 i3 j3 :
  board_at (rows w) b g ->
  0 <= i1 < 3 -> 0 <= j1 < 3 -> 0 <= i2 < 3 -> 0 <= j2 < 3 ->
  0 <= i3 < 3 -> 0 <= j3 < 3 ->
  eq3 b (i1, j1) (i2, j2) (i3, j3) w
  = (Ok (uniform g ((i1, j1), (i2, j2), (i3, j3))), w).
Proof.
  intros H ? ? ? ? ? ?. unfold eq3, uniform, at_pos. simpl.
  rewrite (bind_ok _ _ _ _ _ (getitem2_at _ _ _ i1 j1 H ltac:(lia) ltac:(lia))).
  rewrite (bind_ok _ _ _ _ _ (getitem2_at _ _ _ i2 j2 H ltac:(lia) ltac:(lia))).
  destruct (String.eqb (cell g i1 j1) (cell g i2 j2)); [|reflexivity].
  rewrite (bind_ok _ _ _ _ _ (getitem2_at _ _ _ i3 j3 H ltac:(lia) ltac:(lia))).
  reflexivity.
Qed.

Ltac run H :=
  first
    [ erewrite bind_ok by (eapply eq3_at; [exact H | lia ..])
    | erewrite bind_ok by (eapply getitem2_at; [exact H | lia ..]) ].

Lemma range_3 : range 3 = [0; 1; 2].
Proof. reflexivity. Qed.

Lemma get_winner_loop_at w b g :
  board_at (rows w) b g ->
  Game.get_winner_loop b (range 3) w
  = (Ok (match find (uniform g) (firstn 6 scan_order) with
         | Some (p, _, _) => Some (at_pos g p)
         | None => None
         end), w).
Proof.
  intros H. rewrite range_3.
  cbn [Game.get_winner_loop firstn scan_order find].
  unfold row_line, col_line.
  repeat (run H; match goal with
                 | |- context [uniform g ?l] => destruct (uniform g l)
                 end; [run H; reflexivity|]).
  reflexivity.
Qed.

Lemma first_uniform_split g :
  first_uniform g =
  match find (uniform g) (firstn 6 scan_order) with
  | Some (p, _, _) => Some (at_pos g p)
  | None =>
      if uniform g main_diagonal then Some (cell g 0 0)
      else if uniform g anti_diagonal then Some (cell g 0 2)
      else None
  end.
Proof.
  unfold first_uniform. cbn [scan_order firstn find].
  repeat match goal with
         | |- context [uniform g ?l] => destruct (uniform g l); [reflexivity|]
         end.
  reflexivity.
Qed.

Lemma get_winner_at w g :
  board_at (rows w) (board (game w)) g ->
  Game.get_winner w = (Ok (winner_of g), w).
Proof.
  intros H. unfold Game.get_winner, winner_of.
  rewrite first_uniform_split.
  rewrite bind_get_game.
  rewrite (bind_ok _ _ _ _ _ (get_winner_loop_at _ _ _ H)).
  destruct (find (uniform g) (firstn 6 scan_order)) as [[[p q] r]|];
    [reflexivity|].
  unfold main_diagonal, anti_diagonal.
  repeat (run H; match goal with
                 | |- context [uniform g ?l] => destruct (uniform g l)
                 end; [run H; reflexivity|]).
  reflexivity.
Qed.

Lemma comprehension_load_at h gm b g :
  board_at h b g -> comprehension load b (mkWorld h gm) = (Ok g, mkWorld h gm).
Proof.
  intros H. open_board H.
  unfold comprehension, bind, load, ret. simpl.
  rewrite E0. simpl. rewrite E1. simpl. rewrite E2. reflexivity.
Qed.

Lemma _evaluate_loop_at self w b g :
  board_at (rows w) b g ->
  MinimaxBot._evaluate_loop self b (range 3) w
  = (Ok (match find (uniform g) (firstn 6 scan_order) with
         | Some (p, _, _) => Some (MinimaxBot.verdict self (at_pos g p))
         | None => None
         end), w).
Proof.
  intros H. rewrite range_3.
  cbn [MinimaxBot._evaluate_loop firstn scan_order find].
  unfold row_line, col_line.
  repeat (run H; match goal with
                 | |- context [uniform g ?l] => destruct (uniform g l)
                 end; [run H; reflexivity|]).
  reflexivity.
Qed.

Lemma _evaluate_at self w b g :
  board_at (rows w) b g ->
  MinimaxBot._evaluate self b w = (Ok (evaluate_of self g), w).
Proof.
  intros H. unfold MinimaxBot._evaluate, evaluate_of.
  rewrite first_uniform_split.
  rewrite (bind_ok _ _ _ _ _ (_evaluate_loop_at self _ _ _ H)).
  destruct (find (uniform g) (firstn 6 scan_order)) as [[[p q] r]|];
    [reflexivity|].
  unfold main_diagonal, anti_diagonal.
  repeat (run H; match goal with
                 | |- context [uniform g ?l] => destruct (uniform g l)
                 end; [run H; reflexivity|]).
  destruct w as [h gm]. simpl in H.
  rewrite (bind_ok _ _ _ _ _ (comprehension_load_at h gm _ _ H)).
  reflexivity.
Qed.

Lemma scan_row_at w b g i js acc :
  board_at (rows w) b g -> 0 <= i < 3 -> Forall (fun j => 0 <= j < 3) js ->
  for_each js
    (fun acc j =>
       c <- getitem2 b i j ;;
       ret (if negb (in_XO c) then acc ++ [(i, j)] else acc))
    acc w
  = (Ok (acc ++ List.filter (is_empty g) (map (fun j => (i, j)) js)), w).
Proof.
  intros H Hi Hjs. revert acc.
  induction Hjs as [|j js Hj _ IH]; intros acc; cbn [for_each map List.filter].
  - unfold ret. now rewrite app_nil_r.
  - erewrite bind_ok.
    2:{ run H. reflexivity. }
    rewrite IH. unfold is_empty at 2. cbn [fst snd].
    destruct (negb (in_XO (cell g i j))); [|reflexivity].
    now rewrite <- app_assoc.
Qed.

Lemma scan_rows_at w b g ixs acc :
  board_at (rows w) b g -> Forall (fun i => 0 <= i < 3) ixs ->
  for_each ixs
    (fun acc i =>
       for_each (range 3)
         (fun acc j =>
            c <- getitem2 b i j ;;
            ret (if negb (in_XO c) then acc ++ [(i, j)] else acc))
         acc)
    acc w
  = (Ok (acc ++ List.filter (is_empty g)
                  (flat_map (fun i => map (fun j => (i, j)) (range 3)) ixs)), w).
Proof.
  intros H Hixs. revert acc.
  induction Hixs as [|i ixs Hi _ IH]; intros acc; cbn [for_each flat_map].
  - unfold ret. simpl. now rewrite app_nil_r.
  - erewrite bind_ok.
    2:{ apply scan_row_at; [exact H | exact Hi |].
        rewrite range_3. repeat constructor; lia. }
    rewrite IH, List.filter_app, app_assoc. reflexivity.
Qed.

Lemma get_empty_box_positions_at w b g :
  board_at (rows w) b g ->
  Game.get_empty_box_positions b w = (Ok (empties g), w).
Proof.
  intros H. unfold Game.get_empty_box_positions, empties, positions.
  rewrite scan_rows_at with (g := g); [reflexivity | exact H |].
  rewrite range_3. repeat constructor; lia.
Qed.

(** * Facts about grids *)

Lemma shape3_inv g :
  shape3 g = true ->
  exists a0 a1 a2 b0 b1 b2 c0 c1 c2,
    g = [[a0; a1; a2]; [b0; b1; b2]; [c0; c1; c2]].
Proof.
  intros Hs. unfold shape3 in Hs. apply andb_true_iff in Hs as [Hl Hr].
  apply Nat.eqb_eq in Hl.
  destruct g as [|x [|y [|z [|]]]]; try discriminate.
  simpl in Hr.
  repeat (apply andb_true_iff in Hr as [?%Nat.eqb_eq Hr]).
  destruct x as [|a0 [|a1 [|a2 [|]]]]; try discriminate.
  destruct y as [|b0 [|b1 [|b2 [|]]]]; try discriminate.
  destruct z as [|c0 [|c1 [|c2 [|]]]]; try discriminate.
  repeat eexists.
Qed.

Ltac open_grid H :=
  destruct (shape3_inv _ H) as (? & ? & ? & ? & ? & ? & ? & ? & ? & ->).

Lemma in_positions i j : In (i, j) positions <-> 0 <= i < 3 /\ 0 <= j < 3.
Proof.
  split.
  - intros H. vm_compute in H.
    repeat (destruct H as [H | H]; [injection H as <- <-; lia|]).
    destruct H.
  - intros [Hi Hj]. three i; three j; vm_compute; tauto.
Qed.

Lemma in_empties g p :
  In p (empties g) <->
  (0 <= fst p < 3 /\ 0 <= snd p < 3) /\ is_empty g p = true.
Proof.
  unfold empties. rewrite filter_In. destruct p as [i j].
  now rewrite in_positions.
Qed.

Lemma valid_shape g : valid g = true -> shape3 g = true.
Proof. unfold valid. intros H. now apply andb_true_iff in H as [? _]. Qed.

Lemma valid_cell g i j :
  valid g = true -> 0 <= i < 3 -> 0 <= j < 3 ->
  in_XO (cell g i j) = true \/ cell g i j = str (Game.get_box_number i j).
Proof.
  intros H Hi Hj. unfold valid in H. apply andb_true_iff in H as [_ H].
  rewrite forallb_forall in H.
  specialize (H (i, j) (proj2 (in_positions i j) (conj Hi Hj))).
  unfold cell_ok in H. simpl in H.
  apply orb_true_iff in H as [H | H]; [now left | right].
  now apply String.eqb_eq.
Qed.

Lemma empty_cell g i j :
  valid g = true -> 0 <= i < 3 -> 0 <= j < 3 -> is_empty g (i, j) = true ->
  cell g i j = str (Game.get_box_number i j).
Proof.
  intros H Hi Hj He. destruct (valid_cell g i j H Hi Hj) as [Hm | ?]; [|easy].
  unfold is_empty in He. simpl in He. rewrite Hm in He. discriminate.
Qed.

Lemma shape3_put g i j v : shape3 g = true -> shape3 (put g i j v) = true.
Proof.
  intros H. open_grid H. unfold put.
  destruct (Z.to_nat i) as [|[|[|]]]; destruct (Z.to_nat j) as [|[|[|]]];
    reflexivity.
Qed.

Lemma cell_put g i j v i' j' :
  shape3 g = true ->
  0 <= i < 3 -> 0 <= j < 3 -> 0 <= i' < 3 -> 0 <= j' < 3 ->
  cell (put g i j v) i' j' = if (i =? i') && (j =? j') then v else cell g i' j'.
Proof.
  intros H Hi Hj Hi' Hj'. open_grid H.
  three i; three j; three i'; three j'; reflexivity.
Qed.

Lemma valid_put g i j v :
  valid g = true -> 0 <= i < 3 -> 0 <= j < 3 -> in_XO v = true ->
  valid (put g i j v) = true.
Proof.
  intros H Hi Hj Hv. pose proof (valid_shape _ H) as Hs.
  unfold valid. rewrite shape3_put by assumption. rewrite andb_true_l.
  apply forallb_forall. intros [i' j'] Hin. apply in_positions in Hin as [Hi' Hj'].
  unfold cell_ok. simpl. rewrite cell_put by assumption.
  destruct ((i =? i') && (j =? j')).
  - now rewrite Hv.
  - destruct (valid_cell g i' j' H Hi' Hj') as [-> | ->]; [reflexivity|].
    rewrite String.eqb_refl. apply orb_true_r.
Qed.

Lemma length_filter_sum {A} (f : A -> bool) (l : list A) :
  length (List.filter f l) = list_sum (map (fun x => if f x then 1%nat else 0%nat) l).
Proof.
  induction l as [|x l IH]; [reflexivity|]. simpl.
  destruct (f x); simpl; now rewrite IH.
Qed.

Lemma count_empty_put g i j v :
  shape3 g = true -> 0 <= i < 3 -> 0 <= j < 3 ->
  is_empty g (i, j) = true -> in_XO v = true ->
  count_empty g = S (count_empty (put g i j v)).
Proof.
  intros H Hi Hj He Hv. unfold count_empty, empties.
  rewrite !length_filter_sum. open_grid H.
  unfold is_empty in *. simpl in He.
  three i; three j; unfold cell in He; simpl in He; apply negb_true_iff in He;
    unfold positions; cbn [map list_sum fst snd];
    unfold cell; simpl; rewrite ?He, ?Hv; simpl; lia.
Qed.

Lemma no_empties_full g : shape3 g = true -> empties g = [] -> full g = true.
Proof.
  intros H He. open_grid H.
  assert (Hall : forall i j, 0 <= i < 3 -> 0 <= j < 3 ->
                   is_empty [[x; x0; x1]; [x2; x3; x4]; [x5; x6; x7]] (i, j) = false).
  { intros i j Hi Hj. destruct (is_empty _ (i, j)) eqn:E; [|reflexivity].
    assert (Hin : In (i, j) (empties [[x; x0; x1]; [x2; x3; x4]; [x5; x6; x7]]))
      by (apply in_empties; simpl; auto).
    rewrite He in Hin. destruct Hin. }
  unfold is_empty in Hall. unfold full. simpl.
  pose proof (Hall 0 0 ltac:(lia) ltac:(lia)) as H00.
  pose proof (Hall 0 1 ltac:(lia) ltac:(lia)) as H01.
  pose proof (Hall 0 2 ltac:(lia) ltac:(lia)) as H02.
  pose proof (Hall 1 0 ltac:(lia) ltac:(lia)) as H10.
  pose proof (Hall 1 1 ltac:(lia) ltac:(lia)) as H11.
  pose proof (Hall 1 2 ltac:(lia) ltac:(lia)) as H12.
  pose proof (Hall 2 0 ltac:(lia) ltac:(lia)) as H20.
  pose proof (Hall 2 1 ltac:(lia) ltac:(lia)) as H21.
  pose proof (Hall 2 2 ltac:(lia) ltac:(lia)) as H22.
  unfold cell in *. simpl in *.
  apply negb_false_iff in H00, H01, H02, H10, H11, H12, H20, H21, H22.
  rewrite H00, H01, H02, H10, H11, H12, H20, H21, H22. reflexivity.
Qed.

(** * The value of a position *)

Lemma in_XO_other sym : in_XO (MinimaxBot.other sym) = true.
Proof. unfold MinimaxBot.other. now destruct (String.eqb sym "O"). Qed.

Lemma py_max_maximum l : l <> [] -> py_max l = Ok (maximum l).
Proof. destruct l; [congruence | reflexivity]. Qed.

Lemma py_min_minimum l : l <> [] -> py_min l = Ok (minimum l).
Proof. destruct l; [congruence | reflexivity]. Qed.

Section Search.

Variable self : BotObj.
Variable b : list loc.

(** One round of the loops of [_minimax] and [move]: the cell is written,
    the position is scored and the cell is given its box number back, which
    leaves the world as it was. *)
Lemma try_cell_at {S} (m : Py Z) (k : Z -> Py S) w g sym i j (v : Z) :
  board_at (rows w) b g -> valid g = true ->
  In (i, j) (empties g) ->
  (forall w', board_at (rows w') b (put g i j sym) -> m w' = (Ok v, w')) ->
  (setitem2 b i j sym ;;;
   s <- m ;;
   setitem2 b i j (str (Game.get_box_number i j)) ;;;
   k s) w = k v w.
Proof using Type.
  intros H Hv Hin Hm. apply in_empties in Hin as [[Hi Hj] He]. simpl in Hi, Hj.
  destruct (setitem2_at w b g i j sym H Hi Hj)
    as (w1 & Hset & Hat & _ & _ & _ & Hundo).
  rewrite (bind_ok _ _ _ _ _ Hset).
  rewrite (bind_ok _ _ _ _ _ (Hm w1 Hat)).
  rewrite <- (empty_cell g i j Hv Hi Hj He).
  rewrite (bind_ok _ _ _ _ _ Hundo). reflexivity.
Qed.

Lemma _minimax_at fuel :
  forall w g sym,
    board_at (rows w) b g -> valid g = true -> in_XO sym = true ->
    (count_empty g < fuel)%nat ->
    MinimaxBot._minimax fuel self b sym w
    = (Ok (score_of (count_empty g) self g sym), w).
Proof using Type.
  induction fuel as [|fuel IH]; intros w g sym H Hv Hsym Hfuel; [lia|].
  cbn [MinimaxBot._minimax].
  rewrite (bind_ok _ _ _ _ _ (_evaluate_at self _ _ _ H)).
  destruct (evaluate_of self g) as [s|] eqn:Ev.
  { destruct (count_empty g); simpl; now rewrite Ev. }
  rewrite (bind_ok _ _ _ _ _ (get_empty_box_positions_at _ _ _ H)).
  destruct (count_empty g) as [|n] eqn:En.
  { exfalso. unfold count_empty in En. apply length_zero_iff_nil in En.
    unfold evaluate_of in Ev. rewrite (no_empties_full g) in Ev
      by (auto using valid_shape).
    destruct (first_uniform g); discriminate. }
  assert (Hloop : forall l acc,
    (forall p, In p l -> In p (empties g)) ->
    for_each l
      (fun scores '(i, j) =>
         let box := Game.get_box_number i j in
         setitem2 b i j sym ;;;
         s <- MinimaxBot._minimax fuel self b (MinimaxBot.other sym) ;;
         setitem2 b i j (str box) ;;;
         ret (scores ++ [s])) acc w
    = (Ok (acc ++ map (fun p => score_of n self (place g p sym)
                                  (MinimaxBot.other sym)) l), w)).
  { induction l as [|[i j] l IHl]; intros acc Hl; cbn [for_each map].
    - unfold ret. now rewrite app_nil_r.
    - assert (Hin : In (i, j) (empties g)) by (apply Hl; now left).
      pose proof Hin as Hin'. apply in_empties in Hin' as [[Hi Hj] He].
      simpl in Hi, Hj.
      assert (Hc : count_empty (put g i j sym) = n).
      { pose proof (count_empty_put g i j sym (valid_shape _ Hv) Hi Hj He Hsym).
        lia. }
      erewrite bind_ok.
      2:{ cbv zeta.
          apply (try_cell_at _ (fun s => ret (acc ++ [s])) w g sym i j
                   (score_of n self (put g i j sym) (MinimaxBot.other sym))
                   H Hv Hin).
          intros w' H'. rewrite <- Hc.
          apply IH; [exact H' | now apply valid_put | apply in_XO_other | lia]. }
      rewrite IHl by (intros p Hp; apply Hl; now right).
      rewrite <- app_assoc. reflexivity. }
  rewrite (bind_ok _ _ _ _ _ (Hloop (empties g) [] (fun p Hp => Hp))).
  cbn [app score_of]. rewrite Ev.
  assert (Hne : map (fun p => score_of n self (place g p sym)
                                (MinimaxBot.other sym)) (empties g) <> []).
  { unfold count_empty in En. destruct (empties g); [discriminate|].
    discriminate. }
  unfold lift. destruct (String.eqb sym (symbol self)).
  - now rewrite py_max_maximum.
  - now rewrite py_min_minimum.
Qed.

End Search.

(** * The move of the minimax bot *)

Lemma board_at_app h b g extra : board_at h b g -> board_at (h ++ extra) b g.
Proof.
  intros H. pose proof H as (Hd & Hv & Hs). open_board H.
  repeat split; auto. simpl.
  rewrite !lookup_app_l by (eapply lookup_lt_Some; eassumption).
  now rewrite E0, E1, E2.
Qed.

Lemma copy_at w g :
  board_at (rows w) (board (game w)) g ->
  comprehension (fun r => row <- load r ;; alloc row) (board (game w)) w
  = (Ok [length (rows w); S (length (rows w)); S (S (length (rows w)))],
     with_copy w g)
  /\ board_at (rows (with_copy w g))
       [length (rows w); S (length (rows w)); S (S (length (rows w)))] g.
Proof.
  intros H. pose proof H as (Hd & Hv & Hs).
  destruct w as [h [bd t]]. simpl in *. open_board H. split.
  - unfold comprehension, bind, load, alloc, ret, with_copy. simpl.
    rewrite E0. simpl.
    rewrite lookup_app_l by (eapply lookup_lt_Some; eassumption).
    rewrite E1. simpl.
    rewrite !lookup_app_l
      by (rewrite ?length_app; simpl; apply lookup_lt_Some in E2; lia).
    rewrite E2. simpl.
    rewrite !length_app. simpl. rewrite <- !app_assoc. simpl.
    repeat f_equal; lia.
  - repeat split; simpl.
    + rewrite !orb_false_r, !andb_true_r.
      apply andb_true_iff; split; apply negb_true_iff;
        rewrite ?orb_false_iff, ?Nat.eqb_neq; repeat split; lia.
    + rewrite (lookup_app_r h) by lia. rewrite Nat.sub_diag. simpl.
      rewrite (lookup_app_r h) by lia.
      replace (S (length h) - length h)%nat with 1%nat by lia. simpl.
      rewrite (lookup_app_r h) by lia.
      replace (S (S (length h)) - length h)%nat with 2%nat by lia. reflexivity.
Qed.

Lemma count_empty_le g : (count_empty g <= 9)%nat.
Proof.
  unfold count_empty, empties.
  etransitivity; [apply List.filter_length_le | reflexivity].
Qed.

Lemma dict_set_fresh d key value :
  ~ In key (map fst d) -> dict_set d key value = d ++ [(key, value)].
Proof.
  induction d as [|[k v] d IH]; intros Hk; [reflexivity|]. simpl in *.
  destruct (Z.eqb_spec k key) as [->|?]; [tauto|].
  rewrite IH by tauto. reflexivity.
Qed.

Lemma fold_dict_set {A} (key : A -> Z) (val : A -> Z) l :
  forall acc,
    List.NoDup (map fst acc ++ map key l) ->
    fold_left (fun d p => dict_set d (key p) (val p)) l acc
    = acc ++ map (fun p => (key p, val p)) l.
Proof.
  induction l as [|p l IH]; intros acc Hnd; simpl.
  - now rewrite app_nil_r.
  - assert (Hfresh : ~ In (key p) (map fst acc)).
    { simpl in Hnd. apply List.NoDup_remove_2 in Hnd.
      intros Hin. apply Hnd. apply in_or_app. now left. }
    rewrite dict_set_fresh by assumption.
    rewrite IH.
    + now rewrite <- app_assoc.
    + rewrite map_app. simpl. rewrite <- app_assoc. exact Hnd.
Qed.

Lemma box_of_inj p q :
  In p positions -> In q positions -> box_of p = box_of q -> p = q.
Proof.
  destruct p as [i j], q as [i' j']. rewrite !in_positions.
  unfold box_of, Game.get_box_number. simpl. intros ? ? ?.
  f_equal; lia.
Qed.

Lemma NoDup_positions : List.NoDup positions.
Proof.
  vm_compute. repeat (constructor; [simpl; intuition discriminate|]). constructor.
Qed.

Lemma NoDup_boxes g : List.NoDup (map box_of (empties g)).
Proof.
  unfold empties.
  assert (H : forall l, List.NoDup l -> (forall p, In p l -> In p positions) ->
                        List.NoDup (map box_of (List.filter (is_empty g) l))).
  { induction l as [|p l IH]; intros Hnd Hsub; simpl; [constructor|].
    inversion Hnd as [|? ? Hp Hl]; subst.
    assert (IHl := IH Hl (fun q Hq => Hsub q (or_intror Hq))).
    destruct (is_empty g p); [|exact IHl].
    simpl. constructor; [|exact IHl].
    intros Hin. apply in_map_iff in Hin as (q & Hq & Hin).
    apply filter_In in Hin as [Hin _].
    apply box_of_inj in Hq; [subst; tauto | apply Hsub; now right
                            | apply Hsub; now left]. }
  apply H; [apply NoDup_positions | auto].
Qed.

Lemma move_at fuel self w g :
  board_at (rows w) (board (game w)) g -> valid g = true ->
  in_XO (symbol self) = true -> (9 <= fuel)%nat ->
  MinimaxBot.move fuel self w = (Ok (best_box self g), with_copy w g).
Proof.
  intros H Hv Hsym Hfuel. unfold MinimaxBot.move.
  rewrite bind_get_game.
  destruct (copy_at w g H) as [Hcopy Hb].
  rewrite (bind_ok _ _ _ _ _ Hcopy). rewrite bind_get_game.
  set (b := [length (rows w); S (length (rows w)); S (S (length (rows w)))]) in *.
  set (w1 := with_copy w g) in *.
  assert (Hlive : board_at (rows w1) (board (game w1)) g)
    by (apply board_at_app; exact H).
  rewrite (bind_ok _ _ _ _ _ (get_empty_box_positions_at _ _ _ Hlive)).
  assert (Hloop : forall l acc,
    (forall p, In p l -> In p (empties g)) ->
    for_each l
      (fun scores '(i, j) =>
         let box := Game.get_box_number i j in
         setitem2 b i j (symbol self) ;;;
         s <- MinimaxBot._minimax fuel self b (MinimaxBot.other (symbol self)) ;;
         setitem2 b i j (str box) ;;;
         ret (dict_set scores box s)) acc w1
    = (Ok (fold_left (fun d p => dict_set d (box_of p) (candidate self g p)) l acc),
       w1)).
  { induction l as [|[i j] l IHl]; intros acc Hl; cbn [for_each fold_left].
    - reflexivity.
    - assert (Hin : In (i, j) (empties g)) by (apply Hl; now left).
      pose proof Hin as Hin'. apply in_empties in Hin' as [[Hi Hj] He].
      simpl in Hi, Hj.
      erewrite bind_ok.
      2:{ cbv zeta.
          apply (try_cell_at b _
                   (fun s => ret (dict_set acc (Game.get_box_number i j) s))
                   w1 g (symbol self) i j (candidate self g (i, j)) Hb Hv Hin).
          intros w' H'. unfold candidate, minimax_value, place. simpl.
          apply _minimax_at;
            [exact H' | now apply valid_put | apply in_XO_other |].
          pose proof (count_empty_put g i j (symbol self)
                        (valid_shape _ Hv) Hi Hj He Hsym).
          pose proof (count_empty_le g). lia. }
      rewrite IHl by (intros p Hp; apply Hl; now right).
      reflexivity. }
  rewrite (bind_ok _ _ _ _ _ (Hloop (empties g) [] (fun p Hp => Hp))).
  rewrite fold_dict_set by (simpl; apply NoDup_boxes).
  reflexivity.
Qed.

(** * The move of the game *)

Lemma box_in_range box :
  1 <= box <= 9 -> 0 <= row_of box < 3 /\ 0 <= col_of box < 3.
Proof.
  intros H. unfold row_of, col_of. split.
  - split; [apply Z.div_pos; lia | apply Z.div_lt_upper_bound; lia].
  - apply Z.mod_pos_bound. lia.
Qed.

Lemma move_invalid_box box w :
  box < 1 \/ box > 9 ->
  Game.move box w = (Raise (ValueError "Box must be between 1 and 9"), w).
Proof.
  intros H. unfold Game.move.
  replace ((box <? 1) || (box >? 9)) with true; [reflexivity|].
  symmetry. apply orb_true_iff. destruct H; [left | right]; lia.
Qed.

Lemma move_occupied box w g :
  board_at (rows w) (board (game w)) g -> 1 <= box <= 9 ->
  in_XO (cell g (row_of box) (col_of box)) = true ->
  Game.move box w = (Raise (ValueError "Box is already filled"), w).
Proof.
  intros H Hb Hc. unfold Game.move.
  replace ((box <? 1) || (box >? 9)) with false
    by (symmetry; apply orb_false_iff; split; lia).
  destruct (box_in_range box Hb) as [Hr Hcl]. fold (row_of box) (col_of box).
  cbv zeta. rewrite bind_get_game. run H. now rewrite Hc.
Qed.

Lemma move_free box w g :
  board_at (rows w) (board (game w)) g -> 1 <= box <= 9 ->
  in_XO (cell g (row_of box) (col_of box)) = false ->
  let g' := put g (row_of box) (col_of box) (mark_of_turn (turn (game w))) in
  exists w',
    Game.move box w = (Ok (outcome_of g' (turn (game w) + 1)), w') /\
    board_at (rows w') (board (game w')) g' /\
    board (game w') = board (game w) /\
    turn (game w') = turn (game w) + 1 /\
    length (rows w') = length (rows w) /\
    (forall r, r ∉ board (game w) -> rows w' !! r = rows w !! r).
Proof.
  intros H Hb Hc g'. unfold Game.move.
  replace ((box <? 1) || (box >? 9)) with false
    by (symmetry; apply orb_false_iff; split; lia).
  destruct (box_in_range box Hb) as [Hr Hcl]. fold (row_of box) (col_of box).
  cbv zeta. rewrite bind_get_game. run H. rewrite Hc.
  destruct (setitem2_at w _ g (row_of box) (col_of box)
              (mark_of_turn (turn (game w))) H Hr Hcl)
    as (w1 & Hset & Hat & Hg & Hlen & Hframe & _).
  fold (mark_of_turn (turn (game w))).
  rewrite (bind_ok _ _ _ _ _ Hset).
  unfold set_game at 1.
  erewrite bind_ok by reflexivity.
  set (w2 := mkWorld (rows w1) (mkGame (board (game w)) (turn (game w) + 1))).
  assert (Hat2 : board_at (rows w2) (board (game w2)) g') by exact Hat.
  rewrite (bind_ok _ _ _ _ _ (get_winner_at _ _ Hat2)).
  exists w2. split.
  - unfold outcome_of. destruct (winner_of g'); [reflexivity|].
    rewrite bind_get_game. simpl. destruct (turn (game w) + 1 =? 9); reflexivity.
  - repeat split; solve [auto | apply Hat].
Qed.

(** * Complete lines *)

Lemma in_XO_iff c : in_XO c = true <-> c = "X" \/ c = "O".
Proof.
  unfold in_XO. rewrite orb_true_iff, !String.eqb_eq. reflexivity.
Qed.

Lemma complete_iff g l :
  complete g l = true <-> exists s, complete_with g l s.
Proof.
  destruct l as [[p q] r]. unfold complete, complete_with, uniform. simpl.
  rewrite !andb_true_iff, !String.eqb_eq, in_XO_iff. split.
  - intros [[Hpq Hqr] Hs]. exists (at_pos g p). repeat split; congruence.
  - intros (s & -> & -> & -> & Hs). auto.
Qed.

Lemma equal_cells_marked g i j i' j' :
  valid g = true ->
  0 <= i < 3 -> 0 <= j < 3 -> 0 <= i' < 3 -> 0 <= j' < 3 ->
  (i, j) <> (i', j') ->
  cell g i j = cell g i' j' -> in_XO (cell g i j) = true.
Proof.
  intros Hv Hi Hj Hi' Hj' Hne Heq.
  destruct (valid_cell g i j Hv Hi Hj) as [? | Hp]; [assumption|].
  destruct (valid_cell g i' j' Hv Hi' Hj') as [Hq | Hq]; [congruence|].
  exfalso. rewrite Hp, Hq in Heq. clear Hp Hq Hv.
  three i; three j; three i'; three j';
    solve [congruence | vm_compute in Heq; discriminate].
Qed.

Lemma uniform_complete g l :
  valid g = true -> In l scan_order -> uniform g l = complete g l.
Proof.
  intros Hv Hin. unfold complete.
  destruct (uniform g l) eqn:Hu; [|reflexivity]. symmetry. simpl.
  simpl in Hin.
  repeat (destruct Hin as [<- | Hin];
          [ unfold uniform in Hu; simpl in Hu;
            apply andb_true_iff in Hu as [Hu _]; apply String.eqb_eq in Hu;
            unfold at_pos in *; simpl in *;
            eapply equal_cells_marked; [exact Hv | lia | lia | | | | exact Hu];
            [lia | lia | congruence] |]).
  destruct Hin.
Qed.

Lemma find_ext {A} (f f' : A -> bool) l :
  (forall x, In x l -> f x = f' x) -> find f l = find f' l.
Proof.
  induction l as [|x l IH]; intros H; [reflexivity|]. simpl.
  rewrite (H x) by now left. rewrite IH by (intros; apply H; now right).
  reflexivity.
Qed.

Lemma first_uniform_complete g :
  valid g = true -> first_uniform g = first_complete g.
Proof.
  intros Hv. unfold first_uniform, first_complete.
  rewrite (find_ext (uniform g) (complete g)); [reflexivity|].
  intros. now apply uniform_complete.
Qed.

(** [find] gives the first element that passes the test. *)
Lemma find_first {A} (f : A -> bool) l x :
  find f l = Some x <->
  exists pre post, l = pre ++ x :: post /\ f x = true /\
                   (forall y, In y pre -> f y = false).
Proof.
  induction l as [|a l IH]; simpl.
  - split; [discriminate|]. intros (pre & post & H & _). destruct pre; discriminate.
  - destruct (f a) eqn:Fa.
    + split.
      * intros [= <-]. exists [], l. simpl. tauto.
      * intros (pre & post & H & Hx & Hpre). destruct pre as [|y pre].
        -- simpl in H. congruence.
        -- simpl in H. injection H as <- _. rewrite (Hpre a) in Fa; [discriminate|].
           now left.
    + rewrite IH. split.
      * intros (pre & post & -> & Hx & Hpre). exists (a :: pre), post.
        repeat split; auto. intros y [<- | Hy]; auto.
      * intros (pre & post & H & Hx & Hpre). destruct pre as [|y pre].
        -- simpl in H. injection H as <- _. congruence.
        -- simpl in H. injection H as <- ->. exists pre, post.
           repeat split; auto. intros; apply Hpre; now right.
Qed.

Lemma first_complete_Some g s :
  first_complete g = Some s <->
  exists pre l post,
    scan_order = pre ++ l :: post /\ complete_with g l s /\
    (forall l', In l' pre -> ~ exists s', complete_with g l' s').
Proof.
  unfold first_complete. split.
  - destruct (find (complete g) scan_order) as [[[p q] r]|] eqn:F; [|discriminate].
    intros [= <-]. apply find_first in F as (pre & post & Hso & Hc & Hpre).
    exists pre, (p, q, r), post. split; [exact Hso | split].
    + apply complete_iff in Hc as (s & Hs). pose proof Hs as (Hp & _).
      now rewrite Hp.
    + intros l' Hl' Hex. apply complete_iff in Hex.
      rewrite (Hpre l' Hl') in Hex. discriminate.
  - intros (pre & l & post & Hso & Hc & Hpre).
    assert (F : find (complete g) scan_order = Some l).
    { apply find_first. exists pre, post. repeat split; auto.
      - apply complete_iff. eauto.
      - intros y Hy. destruct (complete g y) eqn:E; [|reflexivity].
        exfalso. apply (Hpre y Hy). now apply complete_iff. }
    rewrite F. destruct l as [[p q] r]. destruct Hc as (Hp & _). now rewrite Hp.
Qed.

Lemma first_complete_None g :
  first_complete g = None <->
  forall l, In l scan_order -> ~ exists s, complete_with g l s.
Proof.
  unfold first_complete. split.
  - destruct (find (complete g) scan_order) as [[[p q] r]|] eqn:F; [discriminate|].
    intros _ l Hl Hex. apply complete_iff in Hex.
    rewrite (find_none _ _ F l Hl) in Hex. discriminate.
  - intros H. destruct (find (complete g) scan_order) as [[[p q] r]|] eqn:F;
      [|reflexivity].
    apply find_some in F as [Hin Hc]. exfalso. apply (H _ Hin).
    now apply complete_iff.
Qed.

Lemma first_complete_mark g s :
  first_complete g = Some s -> s = "X" \/ s = "O".
Proof.
  intros H. apply first_complete_Some in H as (_ & [[p q] r] & _ & _ & Hc & _).
  apply Hc.
Qed.

(** * The game: winner, errors, effect of a move, invariant *)

(** C3: on a board as the program writes it (so on every reachable one),
    [Game.get_winner] returns the mark of the first line, in the order row 0,
    column 0, row 1, column 1, row 2, column 2, main diagonal, anti-diagonal,
    that holds three equal marks; it returns a mark exactly when some line
    does, and [None] exactly when none does. *)
Theorem get_winner_first_complete_line w g :
  board_at (rows w) (board (game w)) g -> valid g = true ->
  exists r,
    Game.get_winner w = (Ok r, w) /\
    (forall s, r = Some s <->
       exists pre l post,
         scan_order = pre ++ l :: post /\ complete_with g l s /\
         (forall l', In l' pre -> ~ exists s', complete_with g l' s')) /\
    (forall s, r = Some s -> s = "X" \/ s = "O") /\
    ((exists s, r = Some s) <->
       exists l s, In l scan_order /\ complete_with g l s) /\
    (r = None <-> forall l, In l scan_order -> ~ exists s, complete_with g l s).
Proof.
  intros H Hv. exists (first_complete g).
  split; [|split; [|split; [|split]]].
  - rewrite (get_winner_at w g H). unfold winner_of.
    now rewrite first_uniform_complete.
  - apply first_complete_Some.
  - apply first_complete_mark.
  - split.
    + intros [s Hs]. apply first_complete_Some in Hs as (pre & l & post & E & Hc & _).
      exists l, s. split; [|exact Hc]. rewrite E. apply in_or_app. right. now left.
    + intros (l & s & Hin & Hc).
      destruct (first_complete g) as [s'|] eqn:E; [eauto|].
      exfalso. rewrite first_complete_None in E. apply (E l Hin). eauto.
  - apply first_complete_None.
Qed.

Lemma box_number_of box :
  1 <= box <= 9 -> Game.get_box_number (row_of box) (col_of box) = box.
Proof.
  intros H. unfold Game.get_box_number, row_of, col_of.
  pose proof (Z.div_mod (box - 1) 3 ltac:(lia)). lia.
Qed.

Lemma box_number_unique i j box :
  0 <= i < 3 -> 0 <= j < 3 -> Game.get_box_number i j = box ->
  1 <= box <= 9 /\ i = row_of box /\ j = col_of box.
Proof.
  intros Hi Hj <-. unfold Game.get_box_number, row_of, col_of.
  replace (i * 3 + j + 1 - 1) with (j + i * 3) by lia.
  rewrite Z.div_add, Z.mod_add, Z.div_small, Z.mod_small by lia. lia.
Qed.

Lemma occupied_iff g box :
  1 <= box <= 9 ->
  occupied g box <-> in_XO (cell g (row_of box) (col_of box)) = true.
Proof.
  intros Hb. split.
  - intros (i & j & Hi & Hj & Hbox & Hc).
    destruct (box_number_unique i j box Hi Hj Hbox) as (_ & <- & <-). exact Hc.
  - intros Hc. destruct (box_in_range box Hb) as [Hr Hcl].
    exists (row_of box), (col_of box). auto using box_number_of.
Qed.

Lemma occupied_range g box : occupied g box -> 1 <= box <= 9.
Proof.
  intros (i & j & Hi & Hj & Hbox & _).
  now destruct (box_number_unique i j box Hi Hj Hbox).
Qed.

(** The three ways [Game.move] ends on a board of three rows of three. *)
Lemma move_cases w g box :
  board_at (rows w) (board (game w)) g ->
  ((box < 1 \/ box > 9) /\ Game.move box w = (Raise InvalidBox, w)) \/
  (1 <= box <= 9 /\ occupied g box /\ Game.move box w = (Raise CellOccupied, w)) \/
  (1 <= box <= 9 /\ ~ occupied g box /\
   let g' := put g (row_of box) (col_of box) (mark_of_turn (turn (game w))) in
   exists w',
     Game.move box w = (Ok (outcome_of g' (turn (game w) + 1)), w') /\
     board_at (rows w') (board (game w')) g' /\
     board (game w') = board (game w) /\
     turn (game w') = turn (game w) + 1 /\
     length (rows w') = length (rows w) /\
     (forall r, r ∉ board (game w) -> rows w' !! r = rows w !! r)).
Proof.
  intros H.
  destruct (Z.lt_ge_cases box 1) as [?|?];
    [left; split; [lia | apply move_invalid_box; lia]|].
  destruct (Z.lt_ge_cases 9 box) as [?|?];
    [left; split; [lia | apply move_invalid_box; lia]|].
  right. assert (Hb : 1 <= box <= 9) by lia.
  destruct (in_XO (cell g (row_of box) (col_of box))) eqn:Hc.
  - left. repeat split; try lia.
    + now apply occupied_iff.
    + now apply (move_occupied box w g).
  - right. repeat split; try lia.
    + rewrite occupied_iff by assumption. congruence.
    + now apply move_free.
Qed.

(** C4: on every board of three rows of three cells and for every integer
    [box], [Game.move] fails with [InvalidBox] exactly when [box < 1] or
    [box > 9] (so for 0 and 10), fails with [CellOccupied] exactly when [box]
    is in 1..9 and its cell holds a mark, and succeeds in all other cases. *)
Theorem move_fails_exactly_when w g box :
  board_at (rows w) (board (game w)) g ->
  (fst (Game.move box w) = Raise InvalidBox <-> box < 1 \/ box > 9) /\
  (fst (Game.move 0 w) = Raise InvalidBox) /\
  (fst (Game.move 10 w) = Raise InvalidBox) /\
  (fst (Game.move box w) = Raise CellOccupied <->
     1 <= box <= 9 /\ occupied g box) /\
  ((exists r, fst (Game.move box w) = Ok r) <->
     ~ (box < 1 \/ box > 9) /\ ~ (1 <= box <= 9 /\ occupied g box)).
Proof.
  intros H.
  split; [|split; [|split; [|split]]].
  - destruct (move_cases w g box H)
      as [[Hb E] | [(Hb & Ho & E) | (Hb & Ho & w' & E & _)]];
      rewrite E; simpl; split; intros; try discriminate; try lia; auto.
  - rewrite move_invalid_box by lia. reflexivity.
  - rewrite move_invalid_box by lia. reflexivity.
  - destruct (move_cases w g box H)
      as [[Hb E] | [(Hb & Ho & E) | (Hb & Ho & w' & E & _)]];
      rewrite E; simpl; split; intros; try discriminate; try tauto;
      try (exfalso; lia); auto.
  - destruct (move_cases w g box H)
      as [[Hb E] | [(Hb & Ho & E) | (Hb & Ho & w' & E & _)]];
      rewrite E; simpl; split.
    all: try (intros [r ?]; discriminate).
    all: try tauto.
    + intros _. split; [lia | tauto].
    + intros _. eauto.
Qed.

Lemma marks_and_empties g :
  shape3 g = true -> (count_marks g + count_empty g = 9)%nat.
Proof.
  intros H. open_grid H. unfold count_marks, count_empty, empties.
  rewrite !length_filter_sum. unfold positions.
  unfold is_empty, cell. simpl.
  repeat match goal with
         | |- context [in_XO ?c] => destruct (in_XO c); simpl
         end; lia.
Qed.

Lemma full_no_empties g : shape3 g = true -> full g = true -> count_empty g = 0%nat.
Proof.
  intros H Hf. open_grid H. unfold full in Hf. simpl in Hf.
  unfold count_empty, empties, positions.
  unfold is_empty, cell. simpl.
  repeat match goal with
         | |- context [in_XO ?c] =>
             destruct (in_XO c); simpl in *; try discriminate
         end.
  reflexivity.
Qed.

Lemma full_iff_nine g : shape3 g = true -> full g = true <-> count_marks g = 9%nat.
Proof.
  intros H. pose proof (marks_and_empties g H). split.
  - intros Hf. pose proof (full_no_empties g H Hf). lia.
  - intros Hm. apply no_empties_full; [assumption|].
    apply length_zero_iff_nil. unfold count_empty in *. lia.
Qed.

Lemma count_marks_put g i j v :
  shape3 g = true -> 0 <= i < 3 -> 0 <= j < 3 ->
  in_XO (cell g i j) = false -> in_XO v = true ->
  count_marks (put g i j v) = S (count_marks g).
Proof.
  intros H Hi Hj He Hv.
  assert (He' : is_empty g (i, j) = true) by (unfold is_empty; simpl; now rewrite He).
  pose proof (count_empty_put g i j v H Hi Hj He' Hv).
  pose proof (marks_and_empties g H).
  pose proof (marks_and_empties _ (shape3_put g i j v H)). lia.
Qed.

Lemma mark_of_turn_even t : mark_of_turn t = if Z.even t then "X" else "O".
Proof.
  unfold mark_of_turn. rewrite Zmod_even. now destruct (Z.even t).
Qed.

Lemma in_XO_mark_of_turn t : in_XO (mark_of_turn t) = true.
Proof. unfold mark_of_turn. now destruct (t mod 2 =? 0). Qed.

Lemma in_play_move w g box r w' :
  in_play w g -> Game.move box w = (Ok r, w') ->
  1 <= box <= 9 /\ ~ occupied g box /\
  let g' := put g (row_of box) (col_of box) (mark_of_turn (turn (game w))) in
  r = outcome_of g' (turn (game w) + 1) /\
  in_play w' g' /\ board (game w') = board (game w) /\
  turn (game w') = turn (game w) + 1.
Proof.
  intros (H & Hv & Ht) E.
  destruct (move_cases w g box H)
    as [[Hb E'] | [(Hb & Ho & E') | (Hb & Ho & w1 & E' & Hat & Hbd & Ht' & _)]];
    rewrite E' in E; try discriminate.
  injection E as <- <-. destruct (box_in_range box Hb) as [Hi Hj].
  split; [exact Hb|]. split; [exact Ho|]. cbv zeta.
  split; [reflexivity|]. split; [|split; [exact Hbd | exact Ht']].
  split; [exact Hat|]. split.
  - apply valid_put; auto using in_XO_mark_of_turn.
  - rewrite count_marks_put; auto using in_XO_mark_of_turn, valid_shape; [lia|].
    rewrite occupied_iff in Ho by assumption.
    now destruct (in_XO (cell g (row_of box) (col_of box))).
Qed.

(** C5: a successful [Game.move] on a game in play writes X into the cell of
    the box when the turn counter is even and O when it is odd, adds one to
    the counter, and returns the mark of the first complete line when the
    board then has one, ['Tie'] when it has none and all nine cells hold a
    mark, and [None] otherwise. *)
Theorem move_writes_counts_and_judges w g box r w' :
  in_play w g -> Game.move box w = (Ok r, w') ->
  exists i j,
    0 <= i < 3 /\ 0 <= j < 3 /\ Game.get_box_number i j = box /\
    let g' := put g i j (if Z.even (turn (game w)) then "X" else "O") in
    board_at (rows w') (board (game w')) g' /\
    cell g' i j = (if Z.even (turn (game w)) then "X" else "O") /\
    (forall i' j', 0 <= i' < 3 -> 0 <= j' < 3 -> (i', j') <> (i, j) ->
                   cell g' i' j' = cell g i' j') /\
    turn (game w') = turn (game w) + 1 /\
    (forall s, first_complete g' = Some s -> r = Some s) /\
    (first_complete g' = None -> full g' = true -> r = Some "Tie") /\
    (first_complete g' = None -> full g' = false -> r = None).
Proof.
  intros Hp E. pose proof Hp as (H & Hv & Ht).
  destruct (in_play_move w g box r w' Hp E) as (Hb & Ho & Hr & Hp' & _ & Ht').
  destruct (box_in_range box Hb) as [Hi Hj].
  exists (row_of box), (col_of box).
  rewrite <- mark_of_turn_even.
  set (g' := put g (row_of box) (col_of box) (mark_of_turn (turn (game w)))) in *.
  destruct Hp' as (H' & Hv' & Hc').
  assert (Hw : winner_of g' = first_complete g')
    by (apply first_uniform_complete; exact Hv').
  assert (Hfull : full g' = true <-> turn (game w) + 1 = 9).
  { rewrite full_iff_nine by (now apply valid_shape). lia. }
  split; [exact Hi|]. split; [exact Hj|].
  split; [now apply box_number_of|]. cbv zeta.
  split; [exact H'|].
  split; [|split; [|split; [exact Ht'|split; [|split]]]].
  - unfold g'. rewrite cell_put by (auto using valid_shape).
    now rewrite !Z.eqb_refl.
  - intros i' j' Hi' Hj' Hne. unfold g'.
    rewrite cell_put by (auto using valid_shape).
    destruct (Z.eqb_spec (row_of box) i'), (Z.eqb_spec (col_of box) j');
      simpl; congruence.
  - intros s Hs. rewrite Hr. unfold outcome_of. now rewrite Hw, Hs.
  - intros Hn Hf. rewrite Hr. unfold outcome_of. rewrite Hw, Hn.
    apply Hfull in Hf. now rewrite Hf.
  - intros Hn Hf. rewrite Hr. unfold outcome_of. rewrite Hw, Hn.
    destruct (Z.eqb_spec (turn (game w) + 1) 9) as [E9|]; [|reflexivity].
    apply Hfull in E9. congruence.
Qed.

Lemma board_at_appended h g :
  shape3 g = true ->
  board_at (h ++ g) [length h; S (length h); S (S (length h))] g.
Proof.
  intros Hs. pose proof Hs as Hs'. open_grid Hs'. repeat split; simpl.
  - rewrite !orb_false_r, !andb_true_r.
    apply andb_true_iff; split; apply negb_true_iff;
      rewrite ?orb_false_iff, ?Nat.eqb_neq; repeat split; lia.
  - rewrite (lookup_app_r h) by lia. rewrite Nat.sub_diag. simpl.
    rewrite (lookup_app_r h) by lia.
    replace (S (length h) - length h)%nat with 1%nat by lia. simpl.
    rewrite (lookup_app_r h) by lia.
    replace (S (S (length h)) - length h)%nat with 2%nat by lia. reflexivity.
Qed.

Lemma init_at w0 :
  exists w,
    Game.__init__ w0 = (Ok tt, w) /\ in_play w fresh_grid /\
    turn (game w) = 0 /\ rows w = rows w0 ++ fresh_grid.
Proof.
  destruct w0 as [h gm].
  exists (mkWorld (h ++ fresh_grid)
            (mkGame [length h; S (length h); S (S (length h))] 0)).
  split; [|split; [|split; reflexivity]].
  - unfold Game.__init__, comprehension, bind, alloc, set_game, ret. simpl.
    rewrite !length_app. simpl. rewrite <- !app_assoc. simpl.
    repeat f_equal; lia.
  - split; [|split; reflexivity]. simpl. now apply board_at_appended.
Qed.

Lemma in_play_step w g box :
  in_play w g ->
  match Game.move box w with
  | (Ok _, w') => turn (game w') = turn (game w) + 1 /\ exists g', in_play w' g'
  | (_, w') => w' = w
  end.
Proof.
  intros Hp. pose proof Hp as (H & _).
  destruct (Game.move box w) as [[r|e|] w'] eqn:E.
  - destruct (in_play_move w g box r w' Hp E) as (_ & _ & _ & Hp' & _ & Ht).
    eauto.
  - destruct (move_cases w g box H)
      as [[_ E'] | [(_ & _ & E') | (_ & _ & w1 & E' & _)]];
      rewrite E' in E; congruence.
  - destruct (move_cases w g box H)
      as [[_ E'] | [(_ & _ & E') | (_ & _ & w1 & E' & _)]];
      rewrite E' in E; congruence.
Qed.

Lemma in_play_moves boxes :
  forall w g, in_play w g -> exists g', in_play (moves boxes w) g'.
Proof.
  induction boxes as [|box boxes IH]; intros w g Hp; simpl; [eauto|].
  pose proof (in_play_step w g box Hp) as Hs.
  destruct (Game.move box w) as [[r|e|] w']; simpl.
  - destruct Hs as (_ & g' & Hp'). eauto.
  - subst. eauto.
  - subst. eauto.
Qed.

(** C6: in every state reached from the constructor by calls of [Game.move],
    successful or failing, the number of cells that hold X or O is the turn
    counter; the counter starts at 0, a successful move adds exactly one to
    it and a failing move leaves it as it is. *)
Theorem marks_equal_turn w0 boxes :
  let start := snd (Game.__init__ w0) in
  let w := moves boxes start in
  turn (game start) = 0 /\
  (exists g, view (rows w) (board (game w)) = Some g /\
             Z.of_nat (count_marks g) = turn (game w)) /\
  (forall box,
     match Game.move box w with
     | (Ok _, w') => turn (game w') = turn (game w) + 1
     | (_, w') => turn (game w') = turn (game w)
     end).
Proof.
  cbv zeta. destruct (init_at w0) as (ws & E & Hp & Ht & _). rewrite E. simpl.
  destruct (in_play_moves boxes ws _ Hp) as (g & Hg).
  split; [exact Ht|]. split.
  - exists g. destruct Hg as ((_ & Hview & _) & _ & Hc). auto.
  - intros box. pose proof (in_play_step _ g box Hg) as Hs.
    destruct (Game.move box (moves boxes ws)) as [[r|e|] w'].
    + apply Hs.
    + now subst.
    + now subst.
Qed.

(** C10: a call of [Game.move] that raises, on a board of three rows of
    three, raises [InvalidBox] or [CellOccupied] and leaves the store and the
    game object, so the board and the turn counter, exactly as they were. *)
Theorem move_failure_is_atomic w g box e w' :
  board_at (rows w) (board (game w)) g ->
  Game.move box w = (Raise e, w') ->
  (e = InvalidBox \/ e = CellOccupied) /\
  w' = w /\
  view (rows w') (board (game w')) = Some g /\
  turn (game w') = turn (game w).
Proof.
  intros H E.
  assert (Hw : (e = InvalidBox \/ e = CellOccupied) /\ w' = w).
  { destruct (move_cases w g box H)
      as [[_ E'] | [(_ & _ & E') | (_ & _ & w1 & E' & _)]];
      rewrite E' in E; try discriminate; injection E as <- <-; auto. }
  destruct Hw as [He ->]. repeat split; auto. apply H.
Qed.

(** * The bot: choice among the scores, scores of positions *)

Lemma pick_from l :
  forall k0 v0,
  exists k v,
    fold_left MinimaxBot.pick_step l (Some k0, Some v0) = (Some k, Some v) /\
    v0 <= v /\
    (forall k' v', In (k', v') l -> v' <= v) /\
    ((k = k0 /\ v = v0) \/
     (v0 < v /\ exists pre post,
         l = pre ++ (k, v) :: post /\
         forall k' v', In (k', v') pre -> v' < v)).
Proof.
  induction l as [|[k1 v1] l IH]; intros k0 v0; simpl.
  - exists k0, v0. repeat split; auto; try lia; try (intros ? ? []).
  - destruct (Z.gtb_spec v1 v0) as [Hgt | Hle].
    + destruct (IH k1 v1) as (k & v & E & Hv & Hall & Hcase).
      exists k, v. split; [exact E|]. split; [lia|]. split.
      * intros k' v' [[= <- <-] | Hin]; [lia | eauto].
      * right. split; [lia|]. destruct Hcase as [[-> ->] | (Hlt & pre & post & -> & Hpre)].
        -- exists [], l. split; [reflexivity|]. intros ? ? [].
        -- exists ((k1, v1) :: pre), post. split; [reflexivity|].
           intros k' v' [[= <- <-] | Hin]; [lia | eauto].
    + destruct (IH k0 v0) as (k & v & E & Hv & Hall & Hcase).
      exists k, v. split; [exact E|]. split; [lia|]. split.
      * intros k' v' [[= <- <-] | Hin]; [lia | eauto].
      * destruct Hcase as [[-> ->] | (Hlt & pre & post & -> & Hpre)]; [now left|].
        right. split; [lia|].
        exists ((k1, v1) :: pre), post. split; [reflexivity|].
        intros k' v' [[= <- <-] | Hin]; [lia | eauto].
Qed.

(** [pick] returns the key of the first entry whose value is the greatest. *)
Lemma pick_first_greatest l :
  l <> [] ->
  exists k v pre post,
    MinimaxBot.pick l = Some k /\ l = pre ++ (k, v) :: post /\
    (forall k' v', In (k', v') pre -> v' < v) /\
    (forall k' v', In (k', v') l -> v' <= v).
Proof.
  destruct l as [|[k1 v1] l]; [congruence|]. intros _.
  unfold MinimaxBot.pick. cbn [fold_left gt_score MinimaxBot.pick_step].
  destruct (pick_from l k1 v1) as (k & v & E & Hv & Hall & Hcase).
  rewrite E. simpl.
  destruct Hcase as [[-> ->] | (Hlt & pre & post & -> & Hpre)].
  - exists k1, v1, [], l. repeat split; auto.
    + intros ? ? [].
    + intros k' v' [[= <- <-] | Hin]; [lia | eauto].
  - exists k, v, ((k1, v1) :: pre), post. repeat split; auto.
    + intros k' v' [[= <- <-] | Hin]; [lia | eauto].
    + intros k' v' [[= <- <-] | Hin]; [lia | eauto].
Qed.

Lemma pick_nil : MinimaxBot.pick [] = None.
Proof. reflexivity. Qed.

Lemma ascending_filter f l : ascending l -> ascending (List.filter f l).
Proof.
  induction 1 as [|p l Hp Hl IH]; simpl; [constructor|].
  destruct (f p); [|exact IH]. constructor; [|exact IH].
  intros q Hq. apply filter_In in Hq as [Hq _]. auto.
Qed.

Lemma ascending_positions : ascending positions.
Proof.
  vm_compute.
  repeat (constructor;
          [intros q Hq; simpl in Hq;
           repeat (destruct Hq as [<- | Hq]; [reflexivity|]); destruct Hq|]).
  constructor.
Qed.

Lemma ascending_split pre :
  forall p post, ascending (pre ++ p :: post) ->
                 forall q, In q post -> box_of p < box_of q.
Proof.
  induction pre as [|a pre IH]; intros p post H q Hq; simpl in H;
    inversion H; subst; eauto.
Qed.

Lemma empties_nonempty_candidates self g :
  empties g <> [] -> candidates self g <> [].
Proof. unfold candidates. destruct (empties g); [congruence | discriminate]. Qed.

(** The box [best_box] returns: an empty cell of greatest score, the lowest
    numbered of them. *)
Lemma best_box_spec self g :
  empties g <> [] ->
  exists p,
    best_box self g = Some (box_of p) /\ In p (empties g) /\
    (forall q, In q (empties g) -> candidate self g q <= candidate self g p) /\
    (forall q, In q (empties g) -> candidate self g q = candidate self g p ->
               box_of p <= box_of q).
Proof.
  intros Hne.
  destruct (pick_first_greatest (candidates self g)
              (empties_nonempty_candidates self g Hne))
    as (k & v & pre & post & Hpick & Hsplit & Hpre & Hall).
  unfold candidates in Hsplit.
  apply map_eq_app in Hsplit as (lpre & lrest & He & Hlpre & Hrest).
  apply map_eq_cons in Hrest as (p & lpost & -> & [= <- <-] & Hpost).
  exists p. split; [exact Hpick|]. split.
  { rewrite He. apply in_or_app. right. now left. }
  split.
  - intros q Hq. apply (Hall (box_of q)). unfold candidates.
    apply in_map_iff. exists q. auto.
  - intros q Hq Heq. rewrite He in Hq.
    apply in_app_or in Hq as [Hq | [<- | Hq]]; [| lia |].
    + exfalso. assert (candidate self g q < candidate self g p); [|lia].
      apply (Hpre (box_of q)). rewrite <- Hlpre. apply in_map_iff. exists q. auto.
    + assert (box_of p < box_of q); [|lia].
      apply (ascending_split lpre p lpost); [|exact Hq].
      rewrite <- He. apply ascending_filter, ascending_positions.
Qed.

(** C7: on a board with an empty cell, [MinimaxBot.move] returns the box of an
    empty cell whose minimax score is the greatest, and among the cells of
    that score the one with the lowest box number (the first in row-major
    order); a second call, on the world the first one leaves, and a call with
    any other sufficient fuel, return the same box. *)
Theorem move_picks_lowest_best_box fuel self w g :
  board_at (rows w) (board (game w)) g -> valid g = true ->
  in_XO (symbol self) = true -> (9 <= fuel)%nat -> empties g <> [] ->
  exists p w1,
    MinimaxBot.move fuel self w = (Ok (Some (box_of p)), w1) /\
    In p (empties g) /\
    (forall q w' b', In q (empties g) ->
       board_at (rows w') b' (place g q (symbol self)) ->
       MinimaxBot._minimax fuel self b' (MinimaxBot.other (symbol self)) w'
       = (Ok (candidate self g q), w')) /\
    (forall q, In q (empties g) -> candidate self g q <= candidate self g p) /\
    (forall q, In q (empties g) -> candidate self g q = candidate self g p ->
               box_of p <= box_of q) /\
    fst (MinimaxBot.move fuel self w1) = Ok (Some (box_of p)) /\
    (forall fuel', (9 <= fuel')%nat ->
                   fst (MinimaxBot.move fuel' self w) = Ok (Some (box_of p))).
Proof.
  intros H Hv Hsym Hfuel Hne.
  destruct (best_box_spec self g Hne) as (p & Hbest & Hin & Hmax & Hlow).
  exists p, (with_copy w g).
  split; [rewrite (move_at fuel self w g) by assumption; now rewrite Hbest|].
  split; [exact Hin|]. split; [|split; [exact Hmax|split; [exact Hlow|split]]].
  - intros [i j] w' b' Hq Hat. unfold candidate, minimax_value.
    apply in_empties in Hq as [[Hi Hj] He]. simpl in Hi, Hj.
    apply _minimax_at;
      [exact Hat | now apply valid_put | apply in_XO_other |].
    pose proof (count_empty_put g i j (symbol self) (valid_shape _ Hv) Hi Hj He Hsym).
    pose proof (count_empty_le g). unfold place. simpl. lia.
  - rewrite (move_at fuel self (with_copy w g) g); auto.
    + now rewrite Hbest.
    + apply board_at_app. exact H.
  - intros fuel' Hfuel'. rewrite (move_at fuel' self w g) by assumption.
    now rewrite Hbest.
Qed.

Lemma fold_max_spec l :
  forall x, (In (fold_left Z.max l x) (x :: l)) /\
            (forall y, In y (x :: l) -> y <= fold_left Z.max l x).
Proof.
  induction l as [|a l IH]; intros x; simpl.
  - split; [now left | intros y [<- | []]; lia].
  - destruct (IH (Z.max x a)) as [Hin Hle]. split.
    + destruct Hin as [E | Hin]; [|auto].
      rewrite <- E. destruct (Z.max_spec x a) as [[_ ->] | [_ ->]]; auto.
    + intros y [<- | [<- | Hy]].
      * specialize (Hle (Z.max x a) (or_introl eq_refl)). lia.
      * specialize (Hle (Z.max x a) (or_introl eq_refl)). lia.
      * apply Hle. now right.
Qed.

Lemma fold_min_spec l :
  forall x, (In (fold_left Z.min l x) (x :: l)) /\
            (forall y, In y (x :: l) -> fold_left Z.min l x <= y).
Proof.
  induction l as [|a l IH]; intros x; simpl.
  - split; [now left | intros y [<- | []]; lia].
  - destruct (IH (Z.min x a)) as [Hin Hle]. split.
    + destruct Hin as [E | Hin]; [|auto].
      rewrite <- E. destruct (Z.min_spec x a) as [[_ ->] | [_ ->]]; auto.
    + intros y [<- | [<- | Hy]].
      * specialize (Hle (Z.min x a) (or_introl eq_refl)). lia.
      * specialize (Hle (Z.min x a) (or_introl eq_refl)). lia.
      * apply Hle. now right.
Qed.

Lemma maximum_spec l :
  l <> [] -> In (maximum l) l /\ forall y, In y l -> y <= maximum l.
Proof. destruct l; [congruence|]. intros _. apply fold_max_spec. Qed.

Lemma minimum_spec l :
  l <> [] -> In (minimum l) l /\ forall y, In y l -> minimum l <= y.
Proof. destruct l; [congruence|]. intros _. apply fold_min_spec. Qed.

Lemma minimax_value_unfold self g sym :
  valid g = true -> in_XO sym = true ->
  minimax_value self g sym =
  match evaluate_of self g with
  | Some s => s
  | None =>
      let children :=
        map (fun p => minimax_value self (place g p sym) (MinimaxBot.other sym))
          (empties g) in
      if String.eqb sym (symbol self) then maximum children
      else minimum children
  end.
Proof.
  intros Hv Hsym. unfold minimax_value.
  destruct (count_empty g) as [|n] eqn:En; simpl.
  - destruct (evaluate_of self g) eqn:Ev; [reflexivity|].
    unfold count_empty in En. apply length_zero_iff_nil in En. rewrite En.
    simpl. now destruct (String.eqb sym (symbol self)).
  - destruct (evaluate_of self g) eqn:Ev; [reflexivity|].
    assert (Hmap : map (fun p => score_of n self (place g p sym) (MinimaxBot.other sym))
                     (empties g)
                   = map (fun p => score_of (count_empty (place g p sym)) self
                                     (place g p sym) (MinimaxBot.other sym))
                       (empties g)).
    { apply map_ext_in. intros [i j] Hp.
      apply in_empties in Hp as [[Hi Hj] He]. simpl in Hi, Hj.
      pose proof (count_empty_put g i j sym (valid_shape _ Hv) Hi Hj He Hsym).
      unfold place. simpl. replace (count_empty (put g i j sym)) with n by lia.
      reflexivity. }
    now rewrite Hmap.
Qed.

Lemma Forall2_map_self {A B} (P : A -> B -> Prop) (f : A -> B) l :
  (forall x, In x l -> P x (f x)) -> List.Forall2 P l (map f l).
Proof.
  induction l as [|x l IH]; intros H; simpl; constructor.
  - apply H. now left.
  - apply IH. intros; apply H; now right.
Qed.

Lemma other_opposite :
  MinimaxBot.other "X" = "O" /\ MinimaxBot.other "O" = "X".
Proof. split; reflexivity. Qed.

(** C8, as the code has it: on a board as the program writes it the
    recursive evaluator leaves the board as it found it and scores it for the
    fixed symbol of the bot: +10 when the first complete line in scan order
    holds the bot's own mark, -10 when it holds the other mark, 0 when no line
    is complete and the board is full; otherwise it writes the symbol to move
    into each empty cell in turn, scores the board for the opposite symbol,
    and returns the greatest of these scores when the symbol to move is the
    bot's own and the least otherwise. *)
Theorem minimax_scores_by_first_line fuel self w b g sym :
  board_at (rows w) b g -> valid g = true -> in_XO sym = true ->
  (count_empty g < fuel)%nat ->
  exists v,
    MinimaxBot._minimax fuel self b sym w = (Ok v, w) /\
    (forall s, first_complete g = Some s ->
               v = if String.eqb s (symbol self) then 10 else -10) /\
    (first_complete g = None -> full g = true -> v = 0) /\
    (first_complete g = None -> full g = false ->
     exists children,
       List.Forall2
         (fun p c =>
            forall fuel' w',
              board_at (rows w') b (place g p sym) ->
              (count_empty (place g p sym) < fuel')%nat ->
              MinimaxBot._minimax fuel' self b (MinimaxBot.other sym) w'
              = (Ok c, w'))
         (empties g) children /\
       In v children /\
       (String.eqb sym (symbol self) = true ->
        forall c, In c children -> c <= v) /\
       (String.eqb sym (symbol self) = false ->
        forall c, In c children -> v <= c)) /\
    (sym = "X" -> MinimaxBot.other sym = "O") /\
    (sym = "O" -> MinimaxBot.other sym = "X").
Proof.
  intros H Hv Hsym Hfuel. exists (minimax_value self g sym).
  split; [now apply _minimax_at|].
  rewrite (minimax_value_unfold self g sym Hv Hsym).
  unfold evaluate_of. rewrite (first_uniform_complete g Hv).
  split; [|split; [|split; [|split]]].
  - intros s ->. reflexivity.
  - intros -> ->. reflexivity.
  - intros Hn Hf. rewrite Hn, Hf. cbv zeta.
    set (children := map (fun p => minimax_value self (place g p sym)
                                     (MinimaxBot.other sym)) (empties g)).
    assert (Hne : children <> []).
    { unfold children. destruct (empties g) eqn:E; [|discriminate].
      pose proof (no_empties_full g (valid_shape _ Hv) E). congruence. }
    exists children. split.
    { apply Forall2_map_self. intros [i j] Hp fuel' w' Hat Hfuel'.
      apply in_empties in Hp as [[Hi Hj] He]. simpl in Hi, Hj.
      apply _minimax_at; auto using in_XO_other.
      now apply valid_put. }
    destruct (maximum_spec children Hne) as [Hmax_in Hmax].
    destruct (minimum_spec children Hne) as [Hmin_in Hmin].
    destruct (String.eqb sym (symbol self)); repeat split; auto;
      discriminate.
  - intros ->. reflexivity.
  - intros ->. reflexivity.
Qed.

(** C8 as stated fails: a line complete for the bot's own symbol does not
    always score +10.  For the bot playing O on [two_lines_grid], a board as
    the program writes it, row 1 is complete for O, and the evaluator returns
    -10, for the X of row 0, which it scans first. *)
Lemma own_line_not_always_plus_ten :
  valid two_lines_grid = true /\
  complete_with two_lines_grid (row_line 1) (symbol (MinimaxBot.__init__ false)) /\
  fst (MinimaxBot._minimax 9 (MinimaxBot.__init__ false) [0; 1; 2]%nat "X"
         two_lines_world) = Ok (-10) /\
  ~ (forall fuel self w b g sym,
        board_at (rows w) b g -> valid g = true -> in_XO sym = true ->
        (count_empty g < fuel)%nat ->
        (exists l, In l scan_order /\ complete_with g l (symbol self)) ->
        fst (MinimaxBot._minimax fuel self b sym w) = Ok 10).
Proof.
  assert (Hline : complete_with two_lines_grid (row_line 1)
                    (symbol (MinimaxBot.__init__ false)))
    by (vm_compute; tauto).
  split; [reflexivity|]. split; [exact Hline|]. split; [reflexivity|].
  intros Hclaim.
  specialize (Hclaim 9%nat (MinimaxBot.__init__ false) two_lines_world
                [0; 1; 2]%nat two_lines_grid "X").
  assert (Hat : board_at (rows two_lines_world) [0; 1; 2]%nat two_lines_grid)
    by (repeat split; reflexivity).
  specialize (Hclaim Hat eq_refl eq_refl ltac:(vm_compute; lia)).
  assert (Hex : exists l, In l scan_order /\
                          complete_with two_lines_grid l
                            (symbol (MinimaxBot.__init__ false))).
  { exists (row_line 1). split; [simpl; tauto | exact Hline]. }
  specialize (Hclaim Hex). vm_compute in Hclaim. discriminate.
Qed.

(** * What the search may touch *)

Lemma kept_refl b w g : board_at (rows w) b g -> kept b w w.
Proof. intros H. repeat split; eauto. Qed.

Lemma kept_trans b w1 w2 w3 : kept b w1 w2 -> kept b w2 w3 -> kept b w1 w3.
Proof.
  intros (Hg & Hl & Hf & _) (Hg' & Hl' & Hf' & Hb).
  split; [congruence|]. split; [congruence|]. split; [|exact Hb].
  intros r Hr. rewrite Hf', Hf by assumption. reflexivity.
Qed.

Lemma kept_bind {A B} b (m : Py A) (f : A -> Py B) w :
  kept b w (snd (m w)) ->
  (forall a w1 g1, m w = (Ok a, w1) -> board_at (rows w1) b g1 ->
                   kept b w1 (snd (f a w1))) ->
  kept b w (snd (bind m f w)).
Proof.
  intros Hm Hf. unfold bind. destruct (m w) as [[a|e|] w1] eqn:E; simpl in *.
  - pose proof Hm as (_ & _ & _ & g1 & H1).
    eapply kept_trans; [exact Hm | now apply Hf with g1].
  - exact Hm.
  - exact Hm.
Qed.

Lemma kept_for_each {A S} b (body : S -> A -> Py S) l :
  forall acc w g,
    board_at (rows w) b g ->
    (forall x acc w1 g1, In x l -> board_at (rows w1) b g1 ->
                         kept b w1 (snd (body acc x w1))) ->
    kept b w (snd (for_each l body acc w)).
Proof.
  induction l as [|x l IH]; intros acc w g H Hbody; cbn [for_each].
  - now apply kept_refl with g.
  - apply kept_bind.
    + apply (Hbody x acc w g); [now left | exact H].
    + intros acc' w1 g1 _ H1.
      apply (IH acc' w1 g1 H1). intros y acc0 w2 g2 Hy. apply Hbody. now right.
Qed.

Lemma kept_setitem2 b w g i j v :
  board_at (rows w) b g -> 0 <= i < 3 -> 0 <= j < 3 ->
  kept b w (snd (setitem2 b i j v w)).
Proof.
  intros H Hi Hj.
  destruct (setitem2_at w b g i j v H Hi Hj) as (w1 & E & Hat & Hg & Hl & Hf & _).
  rewrite E. repeat split; eauto.
Qed.

(** One round of the loops, whatever the scoring [m] answers. *)
Lemma kept_try_cell {S} b (m : Py Z) (k : Z -> Py S) w g i j sym :
  board_at (rows w) b g -> 0 <= i < 3 -> 0 <= j < 3 ->
  (forall w1 g1, board_at (rows w1) b g1 -> kept b w1 (snd (m w1))) ->
  (forall s w1 g1, board_at (rows w1) b g1 -> kept b w1 (snd (k s w1))) ->
  kept b w (snd ((setitem2 b i j sym ;;;
                  s <- m ;;
                  setitem2 b i j (str (Game.get_box_number i j)) ;;;
                  k s) w)).
Proof.
  intros H Hi Hj Hm Hk.
  apply kept_bind; [now apply kept_setitem2 with g|].
  intros [] w1 g1 _ H1.
  apply kept_bind; [now apply Hm with g1|].
  intros s w2 g2 _ H2.
  apply kept_bind; [now apply kept_setitem2 with g2|].
  intros [] w3 g3 _ H3.
  now apply Hk with g3.
Qed.

Lemma kept__minimax self b fuel :
  forall sym w g,
    board_at (rows w) b g ->
    kept b w (snd (MinimaxBot._minimax fuel self b sym w)).
Proof.
  induction fuel as [|fuel IH]; intros sym w g H; cbn [MinimaxBot._minimax].
  - now apply kept_refl with g.
  - rewrite (bind_ok _ _ _ _ _ (_evaluate_at self _ _ _ H)).
    destruct (evaluate_of self g); [now apply kept_refl with g|].
    rewrite (bind_ok _ _ _ _ _ (get_empty_box_positions_at _ _ _ H)).
    apply kept_bind.
    + apply kept_for_each with g; [exact H|].
      intros [i j] acc w1 g1 Hin H1.
      apply in_empties in Hin as [[Hi Hj] _]. simpl in Hi, Hj.
      apply kept_try_cell with g1; auto.
      * intros w2 g2 H2. now apply IH with g2.
      * intros s w2 g2 H2. now apply kept_refl with g2.
    + intros scores w1 g1 _ H1. now apply kept_refl with g1.
Qed.

Lemma view_ext h h' b :
  (forall r, In r b -> h' !! r = h !! r) -> view h' b = view h b.
Proof.
  induction b as [|r b IH]; intros H; simpl; [reflexivity|].
  rewrite (H r) by now left. rewrite IH by (intros; apply H; now right).
  reflexivity.
Qed.

Lemma board_at_bound h b g r : board_at h b g -> In r b -> (r < length h)%nat.
Proof.
  intros H Hr. open_board H.
  destruct Hr as [<- | [<- | [<- | []]]]; eapply lookup_lt_Some; eassumption.
Qed.

(** What [move] does to the world, for any fuel and any content of the
    cells: the rows the store had are as they were. *)
Lemma move_keeps_store fuel self w g :
  board_at (rows w) (board (game w)) g ->
  let w' := snd (MinimaxBot.move fuel self w) in
  game w' = game w /\
  (forall a, (a < length (rows w))%nat -> rows w' !! a = rows w !! a).
Proof.
  intros H. cbv zeta. unfold MinimaxBot.move. rewrite bind_get_game.
  destruct (copy_at w g H) as [Hcopy Hb].
  rewrite (bind_ok _ _ _ _ _ Hcopy). rewrite bind_get_game.
  set (b := [length (rows w); S (length (rows w)); S (S (length (rows w)))]) in *.
  set (w1 := with_copy w g) in *.
  assert (Hlive : board_at (rows w1) (board (game w1)) g)
    by (apply board_at_app; exact H).
  rewrite (bind_ok _ _ _ _ _ (get_empty_box_positions_at _ _ _ Hlive)).
  assert (K : kept b w1
                (snd ((scores <- for_each (empties g)
                         (fun scores '(i, j) =>
                            let box := Game.get_box_number i j in
                            setitem2 b i j (symbol self) ;;;
                            s <- MinimaxBot._minimax fuel self b
                                   (MinimaxBot.other (symbol self)) ;;
                            setitem2 b i j (str box) ;;;
                            ret (dict_set scores box s)) [] ;;
                       ret (MinimaxBot.pick scores)) w1))).
  { apply kept_bind.
    - apply kept_for_each with g; [exact Hb|].
      intros [i j] acc w2 g2 Hin H2.
      apply in_empties in Hin as [[Hi Hj] _]. simpl in Hi, Hj.
      apply kept_try_cell with g2; auto.
      + intros w3 g3 H3. now apply kept__minimax with g3.
      + intros s w3 g3 H3. now apply kept_refl with g3.
    - intros scores w2 g2 _ H2. now apply kept_refl with g2. }
  destruct K as (Kg & _ & Kf & _). split; [exact Kg|].
  intros a Ha. rewrite Kf.
  - unfold w1, with_copy. simpl. now apply lookup_app_l.
  - unfold b. intros Hin. apply list_elem_of_In in Hin. simpl in Hin. lia.
Qed.

(** C9: [MinimaxBot.move] leaves the game as it was: the game object, so the
    turn counter, is the same, every row the store held is unchanged, so the
    live board shows the same grid; this holds for any content of the cells
    and any fuel.  On a board as the program writes it, the search works on
    a copy made of three new rows, and each write of the recursive search is
    undone: [_minimax] returns the world it was given, and after [move] the
    copy shows the grid of the live board again. *)
Theorem move_leaves_game_untouched fuel self w g :
  board_at (rows w) (board (game w)) g ->
  let w' := snd (MinimaxBot.move fuel self w) in
  game w' = game w /\
  turn (game w') = turn (game w) /\
  (forall a, (a < length (rows w))%nat -> rows w' !! a = rows w !! a) /\
  view (rows w') (board (game w')) = Some g /\
  (valid g = true -> in_XO (symbol self) = true -> (9 <= fuel)%nat ->
   (exists r, MinimaxBot.move fuel self w = (Ok r, w')) /\
   rows w' = rows w ++ g /\
   (exists copy,
       board_at (rows w') copy g /\
       forall a, In a copy -> (length (rows w) <= a)%nat /\ ~ In a (board (game w))) /\
   (forall sym b1 w1 g1 fuel1,
       board_at (rows w1) b1 g1 -> valid g1 = true -> in_XO sym = true ->
       (count_empty g1 < fuel1)%nat ->
       snd (MinimaxBot._minimax fuel1 self b1 sym w1) = w1)).
Proof.
  intros H. cbv zeta.
  destruct (move_keeps_store fuel self w g H) as [Hg Hrows].
  split; [exact Hg|]. split; [now rewrite Hg|]. split; [exact Hrows|]. split.
  - rewrite Hg. pose proof H as (_ & Hview & _). rewrite <- Hview.
    apply view_ext. intros r Hr. apply Hrows.
    exact (board_at_bound _ _ g r H Hr).
  - intros Hv Hsym Hfuel.
    rewrite (move_at fuel self w g H Hv Hsym Hfuel). simpl.
    split; [eauto|]. split; [reflexivity|]. split.
    + exists [length (rows w); S (length (rows w)); S (S (length (rows w)))].
      split; [apply (copy_at w g H)|].
      intros a Ha. split; [simpl in Ha; lia|].
      intros Hin. pose proof (board_at_bound _ _ g a H Hin). simpl in Ha. lia.
    + intros sym b1 w1 g1 fuel1 H1 Hv1 Hsym1 Hf1.
      now rewrite (_minimax_at self b1 fuel1 w1 g1 sym).
Qed.

(** * Whole games *)

Lemma move_of_at w g box :
  board_at (rows w) (board (game w)) g -> valid g = true ->
  match move_of box g (turn (game w)) with
  | inl e => Game.move box w = (Raise e, w)
  | inr (r, g') =>
      exists w', Game.move box w = (Ok r, w') /\
                 board_at (rows w') (board (game w')) g' /\ valid g' = true /\
                 turn (game w') = turn (game w) + 1
  end.
Proof.
  intros H Hv. unfold move_of.
  destruct ((box <? 1) || (box >? 9)) eqn:Hr.
  { apply move_invalid_box. apply orb_true_iff in Hr. lia. }
  apply orb_false_iff in Hr. assert (Hb : 1 <= box <= 9) by lia.
  destruct (in_XO (cell g (row_of box) (col_of box))) eqn:Hc.
  { now apply (move_occupied box w g). }
  destruct (move_free box w g H Hb Hc) as (w' & E & Hat & _ & Ht & _).
  exists w'. destruct (box_in_range box Hb).
  repeat split; auto; try apply Hat.
  apply valid_put; auto using in_XO_mark_of_turn.
Qed.

Lemma self_play_at n fuel first second :
  in_XO (symbol first) = true -> in_XO (symbol second) = true ->
  (9 <= fuel)%nat ->
  forall w g,
    board_at (rows w) (board (game w)) g -> valid g = true ->
    fst (self_play n fuel first second w)
    = self_play_of n first second g (turn (game w)).
Proof.
  intros Hf Hs Hfuel. induction n as [|n IH]; intros w g H Hv; [reflexivity|].
  cbn [self_play self_play_of]. rewrite bind_get_game.
  set (bot := if turn (game w) mod 2 =? 0 then first else second).
  assert (Hbot : in_XO (symbol bot) = true)
    by (unfold bot; now destruct (turn (game w) mod 2 =? 0)).
  rewrite (bind_ok _ _ _ _ _ (move_at fuel bot w g H Hv Hbot Hfuel)).
  destruct (best_box bot g) as [box|]; [|reflexivity].
  assert (H1 : board_at (rows (with_copy w g)) (board (game (with_copy w g))) g)
    by (apply board_at_app; exact H).
  pose proof (move_of_at (with_copy w g) g box H1 Hv) as Hm. simpl in Hm.
  destruct (move_of box g (turn (game w))) as [e | [[s|] g']].
  - now rewrite (bind_raise _ _ _ _ _ Hm).
  - destruct Hm as (w' & E & _). now rewrite (bind_ok _ _ _ _ _ E).
  - destruct Hm as (w' & E & Hat & Hv' & Ht). rewrite (bind_ok _ _ _ _ _ E).
    rewrite <- Ht. now apply IH.
Qed.

Lemma self_play_of_more n first second :
  forall g t s,
    self_play_of n first second g t = Ok s ->
    forall m, (n <= m)%nat -> self_play_of m first second g t = Ok s.
Proof.
  induction n as [|n IH]; intros g t s E m Hm; [discriminate|].
  destruct m as [|m]; [lia|]. cbn [self_play_of] in *.
  destruct (best_box _ g) as [box|]; [|discriminate].
  destruct (move_of box g t) as [e | [[s'|] g']]; try discriminate; auto.
  apply IH; [exact E | lia].
Qed.

(** The opening of the bot that goes first. *)
Lemma opening_box : best_box (MinimaxBot.__init__ true) fresh_grid = Some 1.
Proof. vm_cast_no_check (eq_refl (Some 1)). Qed.

Lemma optimal_play_ties :
  self_play_of 9 (MinimaxBot.__init__ true) (MinimaxBot.__init__ false)
    fresh_grid 0 = Ok "Tie".
Proof.
  cbn [self_play_of]. change (0 mod 2 =? 0) with true. cbv iota.
  rewrite opening_box.
  vm_cast_no_check (eq_refl (@Ok string "Tie")).
Qed.

(** C1: two minimax bots, one for X and one for O whichever of the two bot
    objects is given which, playing every move of a new game by
    [MinimaxBot.move] and [Game.move], end on ['Tie']. *)
Theorem minimax_against_minimax_ties w0 n fuel (a_goes_first : bool) :
  (9 <= n)%nat -> (9 <= fuel)%nat ->
  let bot_a := MinimaxBot.__init__ a_goes_first in
  let bot_b := MinimaxBot.__init__ (negb a_goes_first) in
  let first := if a_goes_first then bot_a else bot_b in
  let second := if a_goes_first then bot_b else bot_a in
  fst ((Game.__init__ ;;; self_play n fuel first second) w0) = Ok "Tie".
Proof.
  intros Hn Hfuel. cbv zeta.
  destruct (init_at w0) as (w & E & (H & Hv & _) & Ht & _).
  rewrite (bind_ok _ _ _ _ _ E).
  assert (Hplay : fst (self_play n fuel (MinimaxBot.__init__ true)
                         (MinimaxBot.__init__ false) w) = Ok "Tie").
  { rewrite (self_play_at n fuel (MinimaxBot.__init__ true)
               (MinimaxBot.__init__ false) eq_refl eq_refl Hfuel w fresh_grid H Hv).
    rewrite Ht. apply (self_play_of_more 9); [apply optimal_play_ties | exact Hn]. }
  destruct a_goes_first; exact Hplay.
Qed.

Lemma never_loses_sound k bot human_first_mod fuel :
  in_XO (symbol bot) = true -> (9 <= fuel)%nat ->
  forall g w n inputs s w',
    never_loses k bot human_first_mod g (turn (game w)) = true ->
    board_at (rows w) (board (game w)) g -> valid g = true ->
    game_loop_while n fuel bot human_first_mod inputs w = (Ok s, w') ->
    fine bot s = true.
Proof.
  intros Hbot Hfuel. induction k as [|k IH];
    intros g w n inputs s w' Hsafe H Hv Hrun; [discriminate|].
  destruct n as [|n]; [discriminate|].
  cbn [game_loop_while never_loses] in *. rewrite bind_get_game in Hrun.
  assert (Hafter : forall box w1 inputs1,
    board_at (rows w1) (board (game w1)) g -> turn (game w1) = turn (game w) ->
    match move_of box g (turn (game w)) with
    | inl _ => true
    | inr (Some s, _) => fine bot s
    | inr (None, g') => never_loses k bot human_first_mod g' (turn (game w) + 1)
    end = true ->
    (winner <- Game.move box ;;
     match winner with
     | Some s => ret s
     | None => game_loop_while n fuel bot human_first_mod inputs1
     end) w1 = (Ok s, w') ->
    fine bot s = true).
  { intros box w1 inputs1 H1 Ht1 Hok Hgo.
    pose proof (move_of_at w1 g box H1 Hv) as Hm. rewrite Ht1 in Hm.
    destruct (move_of box g (turn (game w))) as [e | [[s'|] g']].
    - rewrite (bind_raise _ _ _ _ _ Hm) in Hgo. discriminate.
    - destruct Hm as (w2 & E & _). rewrite (bind_ok _ _ _ _ _ E) in Hgo.
      injection Hgo as <- _. exact Hok.
    - destruct Hm as (w2 & E & Hat & Hv' & Ht'). rewrite (bind_ok _ _ _ _ _ E) in Hgo.
      apply (IH g' w2 n inputs1 s w'); auto. now rewrite Ht'. }
  destruct (turn (game w) mod 2 =? human_first_mod).
  - destruct inputs as [|box rest]; [discriminate|].
    destruct (Z.lt_ge_cases box 1) as [?|?];
      [rewrite (bind_raise _ _ _ _ _ (move_invalid_box box w ltac:(lia))) in Hrun;
       discriminate|].
    destruct (Z.lt_ge_cases 9 box) as [?|?];
      [rewrite (bind_raise _ _ _ _ _ (move_invalid_box box w ltac:(lia))) in Hrun;
       discriminate|].
    rewrite forallb_forall in Hsafe.
    apply (Hafter box w rest H eq_refl); [|exact Hrun].
    apply Hsafe.
    assert (Hbox : box = 1 \/ box = 2 \/ box = 3 \/ box = 4 \/ box = 5 \/
                   box = 6 \/ box = 7 \/ box = 8 \/ box = 9) by lia.
    simpl. intuition auto.
  - rewrite (bind_ok _ _ _ _ _ (move_at fuel bot w g H Hv Hbot Hfuel)) in Hrun.
    destruct (best_box bot g) as [box|]; [|discriminate].
    apply (Hafter box (with_copy w g) inputs); auto.
    apply board_at_app. exact H.
Qed.

Lemma game_loop_while_at n fuel bot human_first_mod :
  in_XO (symbol bot) = true -> (9 <= fuel)%nat ->
  forall inputs w g,
    board_at (rows w) (board (game w)) g -> valid g = true ->
    fst (game_loop_while n fuel bot human_first_mod inputs w)
    = game_loop_of n bot human_first_mod inputs g (turn (game w)).
Proof.
  intros Hbot Hfuel. induction n as [|n IH]; intros inputs w g H Hv; [reflexivity|].
  cbn [game_loop_while game_loop_of]. rewrite bind_get_game.
  assert (Hafter : forall box w1 inputs1,
    board_at (rows w1) (board (game w1)) g -> turn (game w1) = turn (game w) ->
    fst ((winner <- Game.move box ;;
          match winner with
          | Some s => ret s
          | None => game_loop_while n fuel bot human_first_mod inputs1
          end) w1)
    = match move_of box g (turn (game w)) with
      | inl e => Raise e
      | inr (Some s, _) => Ok s
      | inr (None, g') =>
          game_loop_of n bot human_first_mod inputs1 g' (turn (game w) + 1)
      end).
  { intros box w1 inputs1 H1 Ht1.
    pose proof (move_of_at w1 g box H1 Hv) as Hm. rewrite Ht1 in Hm.
    destruct (move_of box g (turn (game w))) as [e | [[s'|] g']].
    - now rewrite (bind_raise _ _ _ _ _ Hm).
    - destruct Hm as (w2 & E & _). now rewrite (bind_ok _ _ _ _ _ E).
    - destruct Hm as (w2 & E & Hat & Hv' & Ht'). rewrite (bind_ok _ _ _ _ _ E).
      replace (turn (game w) + 1) with (turn (game w2)) by lia. now apply IH. }
  destruct (turn (game w) mod 2 =? human_first_mod).
  - destruct inputs as [|box rest]; [reflexivity|]. now apply Hafter.
  - rewrite (bind_ok _ _ _ _ _ (move_at fuel bot w g H Hv Hbot Hfuel)).
    destruct (best_box bot g) as [box|]; [|reflexivity].
    apply Hafter; [|reflexivity]. apply board_at_app. exact H.
Qed.

Lemma pair_of_fst {A B} (p : A * B) (a : A) : fst p = a -> p = (a, snd p).
Proof. destruct p. simpl. now intros ->. Qed.

Lemma game_loop_from_new w0 n fuel (human_goes_first : bool) inputs :
  (9 <= fuel)%nat ->
  fst ((Game.__init__ ;;; game_loop n fuel human_goes_first inputs) w0)
  = game_loop_of n (MinimaxBot.__init__ (negb human_goes_first))
      (if human_goes_first then 0 else 1) inputs fresh_grid 0.
Proof.
  intros Hfuel. destruct (init_at w0) as (w & E & (H & Hv & _) & Ht & _).
  rewrite (bind_ok _ _ _ _ _ E). unfold game_loop. rewrite <- Ht.
  apply game_loop_while_at; auto. now destruct human_goes_first.
Qed.

Lemma bot_second_never_loses :
  never_loses 10 (MinimaxBot.__init__ false) 0 fresh_grid 0 = true.
Proof. vm_cast_no_check (eq_refl true). Qed.

Lemma bot_first_never_loses :
  never_loses 10 (MinimaxBot.__init__ true) 1 fresh_grid 0 = true.
Proof.
  cbn [never_loses]. change (0 mod 2 =? 1) with false. cbv iota.
  rewrite opening_box.
  vm_cast_no_check (eq_refl true).
Qed.

(** C2: in every game from a new board in which the minimax bot chooses its
    moves by [MinimaxBot.move], whichever of the two goes first and whatever
    boxes the opponent enters, an outcome, when the game has one, is ['Tie']
    or the bot's own mark, never the opponent's. *)
Theorem minimax_never_loses w0 n fuel (human_goes_first : bool) inputs s w' :
  (9 <= fuel)%nat ->
  (Game.__init__ ;;; game_loop n fuel human_goes_first inputs) w0 = (Ok s, w') ->
  let bot := MinimaxBot.__init__ (negb human_goes_first) in
  let opponent := if human_goes_first then "X" else "O" in
  (s = "Tie" \/ s = symbol bot) /\ s <> opponent.
Proof.
  intros Hfuel Hrun. cbv zeta.
  destruct (init_at w0) as (w & E & (H & Hv & _) & Ht & _).
  rewrite (bind_ok _ _ _ _ _ E) in Hrun. unfold game_loop in Hrun.
  assert (Hfine : fine (MinimaxBot.__init__ (negb human_goes_first)) s = true).
  { destruct human_goes_first.
    - apply (never_loses_sound 10 (MinimaxBot.__init__ false) 0 fuel eq_refl Hfuel
               fresh_grid w n inputs s w'); auto.
      rewrite Ht. apply bot_second_never_loses.
    - apply (never_loses_sound 10 (MinimaxBot.__init__ true) 1 fuel eq_refl Hfuel
               fresh_grid w n inputs s w'); auto.
      rewrite Ht. apply bot_first_never_loses. }
  unfold fine in Hfine. apply orb_true_iff in Hfine.
  rewrite !String.eqb_eq in Hfine.
  split; [exact Hfine|].
  destruct human_goes_first; simpl in *; destruct Hfine as [-> | ->]; discriminate.
Qed.

(** * The theorems at concrete games *)

Lemma new_world_in_play : in_play new_world fresh_grid.
Proof. repeat split; reflexivity. Defined.

Lemma centre_world_at :
  board_at (rows centre_world) (board (game centre_world)) centre_grid.
Proof. repeat split; reflexivity. Defined.

Lemma two_lines_world_at :
  board_at (rows two_lines_world) (board (game two_lines_world)) two_lines_grid.
Proof. repeat split; reflexivity. Defined.

Lemma minimax_against_minimax_ties_witness :
  fst ((Game.__init__ ;;;
        self_play 9 9 (MinimaxBot.__init__ true) (MinimaxBot.__init__ false))
         empty_world) = Ok "Tie".
Proof.
  apply (minimax_against_minimax_ties empty_world 9 9 true); lia.
Defined.

Lemma minimax_never_loses_witness :
  ("O" = "Tie" \/ "O" = "O") /\ "O" <> "X".
Proof.
  apply (minimax_never_loses empty_world 9 9 true [1; 2; 4] "O"
           (snd ((Game.__init__ ;;; game_loop 9 9 true [1; 2; 4]) empty_world))).
  - lia.
  - apply pair_of_fst.
    rewrite game_loop_from_new by lia. vm_compute. reflexivity.
Defined.

Lemma get_winner_first_complete_line_witness :
  exists r, Game.get_winner two_lines_world = (Ok r, two_lines_world) /\
            (r = None <-> forall l, In l scan_order ->
                                    ~ exists s, complete_with two_lines_grid l s).
Proof.
  destruct (get_winner_first_complete_line two_lines_world two_lines_grid
              two_lines_world_at eq_refl) as (r & E & _ & _ & _ & Hnone).
  exists r. split; [exact E | exact Hnone].
Defined.

Lemma move_fails_exactly_when_witness :
  fst (Game.move 5 centre_world) = Raise CellOccupied <->
  1 <= 5 <= 9 /\ occupied centre_grid 5.
Proof.
  apply (move_fails_exactly_when centre_world centre_grid 5 centre_world_at).
Defined.

Lemma move_writes_counts_and_judges_witness :
  exists i j,
    0 <= i < 3 /\ 0 <= j < 3 /\ Game.get_box_number i j = 5 /\
    turn (game centre_world) = turn (game new_world) + 1.
Proof.
  destruct (move_writes_counts_and_judges new_world fresh_grid 5 None centre_world
              new_world_in_play eq_refl)
    as (i & j & Hi & Hj & Hbox & _ & _ & _ & Ht & _).
  exists i, j. auto.
Defined.

Lemma move_failure_is_atomic_witness :
  (InvalidBox = InvalidBox \/ InvalidBox = CellOccupied) /\
  centre_world = centre_world /\
  view (rows centre_world) (board (game centre_world)) = Some centre_grid /\
  turn (game centre_world) = turn (game centre_world).
Proof.
  apply (move_failure_is_atomic centre_world centre_grid 10 InvalidBox
           centre_world centre_world_at eq_refl).
Defined.

Lemma move_picks_lowest_best_box_witness :
  exists p w1,
    MinimaxBot.move 9 (MinimaxBot.__init__ true) two_lines_world
    = (Ok (Some (box_of p)), w1) /\
    In p (empties two_lines_grid).
Proof.
  destruct (move_picks_lowest_best_box 9 (MinimaxBot.__init__ true)
              two_lines_world two_lines_grid two_lines_world_at eq_refl eq_refl
              ltac:(lia) ltac:(discriminate))
    as (p & w1 & E & Hin & _).
  exists p, w1. split; assumption.
Defined.

Lemma minimax_scores_by_first_line_witness :
  exists v,
    MinimaxBot._minimax 9 (MinimaxBot.__init__ false) [0; 1; 2]%nat "X"
      two_lines_world = (Ok v, two_lines_world) /\
    (forall s, first_complete two_lines_grid = Some s ->
               v = if String.eqb s "O" then 10 else -10).
Proof.
  destruct (minimax_scores_by_first_line 9 (MinimaxBot.__init__ false)
              two_lines_world [0; 1; 2]%nat two_lines_grid "X"
              two_lines_world_at eq_refl eq_refl ltac:(vm_compute; lia))
    as (v & E & Hline & _).
  exists v. split; [exact E | exact Hline].
Defined.

Lemma move_leaves_game_untouched_witness :
  game (snd (MinimaxBot.move 9 (MinimaxBot.__init__ false) centre_world))
  = game centre_world.
Proof.
  apply (move_leaves_game_untouched 9 (MinimaxBot.__init__ false) centre_world
           centre_grid centre_world_at).
Defined.

(** * Further properties of the game and the bots *)

(** X1: the box numbers and the positions are in one-to-one correspondence:
    the row [(box - 1) // 3] and the column [(box - 1) % 3] that [Game.move]
    computes for a box in 1..9 are in 0..2 and [get_box_number] gives the box
    back; and [get_box_number] of a position in range is in 1..9 and decodes
    to that position. *)
Theorem box_number_round_trip :
  (forall box, 1 <= box <= 9 ->
     0 <= (box - 1) / 3 < 3 /\ 0 <= (box - 1) mod 3 < 3 /\
     Game.get_box_number ((box - 1) / 3) ((box - 1) mod 3) = box) /\
  (forall i j, 0 <= i < 3 -> 0 <= j < 3 ->
     1 <= Game.get_box_number i j <= 9 /\
     (Game.get_box_number i j - 1) / 3 = i /\
     (Game.get_box_number i j - 1) mod 3 = j).
Proof.
  split.
  - intros box Hb. destruct (box_in_range box Hb) as [Hr Hc].
    split; [exact Hr|]. split; [exact Hc|]. now apply box_number_of.
  - intros i j Hi Hj.
    destruct (box_number_unique i j _ Hi Hj eq_refl) as (Hb & Hr & Hc).
    split; [exact Hb|]. split; symmetry; assumption.
Qed.

Lemma box_number_round_trip_witness :
  Game.get_box_number ((5 - 1) / 3) ((5 - 1) mod 3) = 5 /\
  (Game.get_box_number 2 1 - 1) / 3 = 2.
Proof.
  destruct box_number_round_trip as [Hdec Henc]. split.
  - apply (Hdec 5). lia.
  - apply (Henc 2 1); lia.
Defined.

(** X2: on a board of three rows of three [get_empty_box_positions] changes
    nothing and returns exactly the positions whose cell is neither ['X'] nor
    ['O'], each once, in the order of their box numbers; with the marks they
    are the nine cells. *)
Theorem empty_positions_listed_in_order w b g :
  board_at (rows w) b g ->
  exists l,
    Game.get_empty_box_positions b w = (Ok l, w) /\
    (forall i j, In (i, j) l <->
                 (0 <= i < 3 /\ 0 <= j < 3) /\ in_XO (cell g i j) = false) /\
    (forall pre p post, l = pre ++ p :: post ->
                        forall q, In q post -> box_of p < box_of q) /\
    (length l + count_marks g = 9)%nat.
Proof.
  intros H. exists (empties g).
  split; [now apply get_empty_box_positions_at|]. split; [|split].
  - intros i j. rewrite in_empties. unfold is_empty. simpl.
    rewrite negb_true_iff. reflexivity.
  - intros pre p post E. apply (ascending_split pre). rewrite <- E.
    apply ascending_filter, ascending_positions.
  - pose proof (marks_and_empties g ltac:(apply H)). unfold count_empty in *. lia.
Qed.

Lemma empty_positions_listed_in_order_witness :
  exists l, Game.get_empty_box_positions (board (game centre_world)) centre_world
            = (Ok l, centre_world) /\
            (length l + count_marks centre_grid = 9)%nat.
Proof.
  destruct (empty_positions_listed_in_order centre_world _ centre_grid
              centre_world_at) as (l & E & _ & _ & Hlen).
  exists l. split; assumption.
Defined.

Lemma init_exact w0 :
  Game.__init__ w0
  = (Ok tt, mkWorld (rows w0 ++ fresh_grid)
              (mkGame [length (rows w0); S (length (rows w0));
                       S (S (length (rows w0)))] 0)).
Proof.
  destruct w0 as [h gm].
  unfold Game.__init__, comprehension, bind, alloc, set_game, ret. simpl.
  rewrite !length_app. simpl. rewrite <- !app_assoc. simpl.
  repeat f_equal; lia.
Qed.

(** X3: [Game.__init__] never fails: it appends three new rows to the store
    and touches no row that was there (a board built before still shows its
    grid), sets the turn to 0, and every cell reads as the text of its box
    number, so that all nine positions are empty and there is no winner. *)
Theorem init_builds_a_fresh_board w0 :
  exists w,
    Game.__init__ w0 = (Ok tt, w) /\
    rows w = rows w0 ++ fresh_grid /\
    (forall a, (a < length (rows w0))%nat -> rows w !! a = rows w0 !! a) /\
    (forall a, In a (board (game w)) -> (length (rows w0) <= a)%nat) /\
    turn (game w) = 0 /\
    board_at (rows w) (board (game w)) fresh_grid /\
    (forall i j, 0 <= i < 3 -> 0 <= j < 3 ->
                 getitem2 (board (game w)) i j w
                 = (Ok (str (Game.get_box_number i j)), w)) /\
    Game.get_empty_box_positions (board (game w)) w = (Ok positions, w) /\
    Game.get_winner w = (Ok None, w) /\
    (forall old g, board_at (rows w0) old g -> board_at (rows w) old g).
Proof.
  set (w := mkWorld (rows w0 ++ fresh_grid)
              (mkGame [length (rows w0); S (length (rows w0));
                       S (S (length (rows w0)))] 0)).
  exists w. split; [apply init_exact|].
  assert (H : board_at (rows w) (board (game w)) fresh_grid)
    by now apply board_at_appended.
  split; [reflexivity|].
  split; [|split; [|split; [reflexivity|split; [exact H|split; [|split; [|split]]]]]].
  - intros a Ha. now apply lookup_app_l.
  - intros a Ha. simpl in Ha. lia.
  - intros i j Hi Hj. rewrite (getitem2_at w _ fresh_grid i j H Hi Hj).
    three i; three j; reflexivity.
  - now rewrite (get_empty_box_positions_at w _ fresh_grid H).
  - now rewrite (get_winner_at w fresh_grid H).
  - intros old g Hold. now apply board_at_app.
Qed.

Lemma init_builds_a_fresh_board_witness :
  exists w,
    Game.__init__ centre_world = (Ok tt, w) /\
    board_at (rows w) (board (game centre_world)) centre_grid.
Proof.
  destruct (init_builds_a_fresh_board centre_world)
    as (w & E & _ & _ & _ & _ & _ & _ & _ & _ & Hold).
  exists w. split; [exact E|]. apply Hold. exact centre_world_at.
Defined.

(** A successful move changes the cell of the box and no other. *)
Lemma move_ok_cells w g box r w' :
  board_at (rows w) (board (game w)) g ->
  Game.move box w = (Ok r, w') ->
  let g' := put g (row_of box) (col_of box) (mark_of_turn (turn (game w))) in
  1 <= box <= 9 /\
  in_XO (cell g (row_of box) (col_of box)) = false /\
  board_at (rows w') (board (game w')) g' /\
  turn (game w') = turn (game w) + 1 /\
  r = outcome_of g' (turn (game w) + 1).
Proof.
  intros H E. cbv zeta.
  destruct (move_cases w g box H)
    as [[Hb E'] | [(Hb & Ho & E') | (Hb & Ho & w1 & E' & Hat & _ & Ht & _)]];
    rewrite E' in E; try discriminate.
  injection E as <- <-. split; [exact Hb|]. split.
  - rewrite occupied_iff in Ho by assumption.
    now destruct (in_XO (cell g (row_of box) (col_of box))).
  - auto.
Qed.

(** A move that does not succeed raises and leaves the world as it is. *)
Lemma move_not_ok_same w g box :
  board_at (rows w) (board (game w)) g ->
  (forall r w', Game.move box w <> (Ok r, w')) ->
  exists e, Game.move box w = (Raise e, w).
Proof.
  intros H Hno.
  destruct (move_cases w g box H)
    as [[Hb E'] | [(Hb & Ho & E') | (Hb & Ho & w1 & E' & _)]]; eauto.
  exfalso. eapply Hno. exact E'.
Qed.

(** X4: a mark is never overwritten: whatever boxes are passed to
    [Game.move] afterwards, accepted or refused, a cell that holds X or O
    holds the same mark. *)
Theorem marks_are_never_overwritten boxes :
  forall w g,
    board_at (rows w) (board (game w)) g ->
    exists g',
      board_at (rows (moves boxes w)) (board (game (moves boxes w))) g' /\
      forall i j, 0 <= i < 3 -> 0 <= j < 3 ->
                  in_XO (cell g i j) = true -> cell g' i j = cell g i j.
Proof.
  induction boxes as [|box boxes IH]; intros w g H; simpl.
  { exists g. auto. }
  destruct (Game.move box w) as [[r|e|] w'] eqn:E; simpl.
  - destruct (move_ok_cells w g box r w' H E) as (Hb & Hc & Hat & _).
    destruct (box_in_range box Hb) as [Hr Hcl].
    destruct (IH w' _ Hat) as (g' & Hat' & Hkeep).
    exists g'. split; [exact Hat'|].
    intros i j Hi Hj Hm.
    assert (Hsame : cell (put g (row_of box) (col_of box)
                            (mark_of_turn (turn (game w)))) i j = cell g i j).
    { rewrite cell_put by (auto; apply H).
      destruct (Z.eqb_spec (row_of box) i) as [<-|]; [|reflexivity].
      destruct (Z.eqb_spec (col_of box) j) as [<-|]; [|reflexivity].
      congruence. }
    rewrite <- Hsame. apply Hkeep; auto. now rewrite Hsame.
  - destruct (move_not_ok_same w g box H) as (e' & E').
    { intros r w1. rewrite E. discriminate. }
    rewrite E' in E. injection E as _ <-. now apply IH.
  - destruct (move_not_ok_same w g box H) as (e' & E').
    { intros r w1. rewrite E. discriminate. }
    rewrite E' in E. discriminate.
Qed.

Lemma marks_are_never_overwritten_witness :
  exists g',
    board_at (rows (moves [5; 1; 10] centre_world))
      (board (game (moves [5; 1; 10] centre_world))) g' /\
    cell g' 1 1 = "X".
Proof.
  destruct (marks_are_never_overwritten [5; 1; 10] centre_world centre_grid
              centre_world_at) as (g' & Hat & Hkeep).
  exists g'. split; [exact Hat|].
  apply (Hkeep 1 1); [lia | lia | reflexivity].
Defined.

Lemma count_of_put s g i j v :
  shape3 g = true -> 0 <= i < 3 -> 0 <= j < 3 ->
  in_XO s = true -> in_XO (cell g i j) = false ->
  count_of s (put g i j v) = (count_of s g + if String.eqb s v then 1 else 0)%nat.
Proof.
  intros H Hi Hj Hs Hc. unfold count_of. rewrite !length_filter_sum.
  assert (Hold : String.eqb s (cell g i j) = false).
  { apply in_XO_iff in Hs. unfold in_XO in Hc. apply orb_false_iff in Hc as [Hx Ho].
    rewrite String.eqb_sym. destruct Hs as [-> | ->]; assumption. }
  open_grid H.
  three i; three j; unfold cell in Hold; simpl in Hold; simpl;
    rewrite Hold; destruct (String.eqb s v); lia.
Qed.

Lemma marks_by_turn_put g t i j :
  shape3 g = true -> 0 <= i < 3 -> 0 <= j < 3 -> 0 <= t ->
  in_XO (cell g i j) = false -> marks_by_turn g t ->
  marks_by_turn (put g i j (mark_of_turn t)) (t + 1).
Proof.
  intros H Hi Hj Ht Hc [Hx Ho]. unfold marks_by_turn.
  rewrite !count_of_put by auto. unfold mark_of_turn.
  destruct (Z.eqb_spec (t mod 2) 0) as [E | E]; simpl;
    split; Z.to_euclidean_division_equations; lia.
Qed.

Lemma marks_by_turn_moves boxes :
  forall w g,
    board_at (rows w) (board (game w)) g -> 0 <= turn (game w) ->
    marks_by_turn g (turn (game w)) ->
    exists g',
      board_at (rows (moves boxes w)) (board (game (moves boxes w))) g' /\
      0 <= turn (game (moves boxes w)) /\
      marks_by_turn g' (turn (game (moves boxes w))).
Proof.
  induction boxes as [|box boxes IH]; intros w g H Ht Hm; simpl.
  { exists g. auto. }
  destruct (Game.move box w) as [[r|e|] w'] eqn:E; simpl.
  - destruct (move_ok_cells w g box r w' H E) as (Hb & Hc & Hat & Ht' & _).
    destruct (box_in_range box Hb) as [Hr Hcl].
    apply (IH w' _ Hat); [lia|]. rewrite Ht'.
    apply marks_by_turn_put; auto. apply H.
  - destruct (move_not_ok_same w g box H) as (e' & E').
    { intros r w1. rewrite E. discriminate. }
    rewrite E' in E. injection E as _ <-. now apply (IH w g).
  - destruct (move_not_ok_same w g box H) as (e' & E').
    { intros r w1. rewrite E. discriminate. }
    rewrite E' in E. discriminate.
Qed.

(** X5: in every state reached from the constructor by calls of
    [Game.move], X has [(turn + 1) // 2] marks and O has [turn // 2]: the
    marks alternate, X first, and X is never more than one mark ahead. *)
Theorem marks_alternate_from_X w0 boxes :
  let w := moves boxes (snd (Game.__init__ w0)) in
  exists g,
    view (rows w) (board (game w)) = Some g /\
    Z.of_nat (count_of "X" g) = (turn (game w) + 1) / 2 /\
    Z.of_nat (count_of "O" g) = turn (game w) / 2 /\
    (count_of "O" g <= count_of "X" g <= count_of "O" g + 1)%nat.
Proof.
  cbv zeta. rewrite init_exact. cbn [snd].
  set (ws := mkWorld _ _).
  assert (H : board_at (rows ws) (board (game ws)) fresh_grid)
    by now apply board_at_appended.
  destruct (marks_by_turn_moves boxes ws fresh_grid H)
    as (g & Hat & Ht & Hx & Ho).
  { simpl. lia. }
  { split; reflexivity. }
  exists g. split; [apply Hat|]. split; [exact Hx|]. split; [exact Ho|].
  revert Hx Ho. generalize (turn (game (moves boxes ws))) Ht.
  intros t Ht0 Hx Ho. Z.to_euclidean_division_equations. lia.
Qed.

Lemma scan_order_in_range p q r :
  In (p, q, r) scan_order -> In p positions /\ In q positions /\ In r positions.
Proof.
  intros H. simpl in H.
  repeat (destruct H as [[= <- <- <-] | H];
          [repeat split; apply in_positions; simpl; lia|]).
  destruct H.
Qed.

Lemma at_pos_put g i j v p :
  shape3 g = true -> 0 <= i < 3 -> 0 <= j < 3 -> In p positions ->
  at_pos (put g i j v) p = v \/ at_pos (put g i j v) p = at_pos g p.
Proof.
  intros H Hi Hj Hp. destruct p as [i' j']. apply in_positions in Hp as [Hi' Hj'].
  unfold at_pos. simpl. rewrite cell_put by assumption.
  destruct ((i =? i') && (j =? j')); auto.
Qed.

(** A line completed by writing [v] into a grid without a complete line
    holds [v]. *)
Lemma new_line_holds_the_mark g i j v s :
  shape3 g = true -> 0 <= i < 3 -> 0 <= j < 3 ->
  first_complete g = None ->
  first_complete (put g i j v) = Some s -> s = v.
Proof.
  intros H Hi Hj Hnone Hs.
  apply first_complete_Some in Hs as (pre & [[p q] r] & post & E & Hc & _).
  assert (Hin : In (p, q, r) scan_order)
    by (rewrite E; apply in_or_app; right; now left).
  destruct (scan_order_in_range p q r Hin) as (Hp & Hq & Hr).
  destruct Hc as (Cp & Cq & Cr & Hmark).
  destruct (at_pos_put g i j v p H Hi Hj Hp) as [Ep | Ep]; [congruence|].
  destruct (at_pos_put g i j v q H Hi Hj Hq) as [Eq | Eq]; [congruence|].
  destruct (at_pos_put g i j v r H Hi Hj Hr) as [Er | Er]; [congruence|].
  exfalso. rewrite first_complete_None in Hnone. apply (Hnone (p, q, r) Hin).
  exists s. repeat split; congruence.
Qed.

(** X6: in a game in play without a complete line, a move that returns a
    string returns the mark of the player who moved, with a line complete
    for that mark, or ['Tie'] at turn 9 without a complete line: the
    opponent of the mover never wins on that move, which is what the
    message of [game_loop] relies on. *)
Theorem only_the_mover_wins w g box s w' :
  in_play w g -> first_complete g = None ->
  Game.move box w = (Ok (Some s), w') ->
  let mover := if Z.even (turn (game w)) then "X" else "O" in
  (s = mover /\
   exists g' l, board_at (rows w') (board (game w')) g' /\
                In l scan_order /\ complete_with g' l mover) \/
  (s = "Tie" /\ turn (game w') = 9 /\
   exists g', board_at (rows w') (board (game w')) g' /\
              first_complete g' = None).
Proof.
  intros Hp Hnone E. cbv zeta. rewrite <- mark_of_turn_even.
  pose proof Hp as (H & Hv & _).
  destruct (in_play_move w g box (Some s) w' Hp E)
    as (Hb & _ & Hr & (Hat' & Hv' & _) & _ & Ht').
  destruct (box_in_range box Hb) as [Hi Hj].
  set (g' := put g (row_of box) (col_of box) (mark_of_turn (turn (game w)))) in *.
  unfold outcome_of, winner_of in Hr. rewrite (first_uniform_complete g' Hv') in Hr.
  destruct (first_complete g') as [s0|] eqn:Hfc.
  - injection Hr as ->. left.
    assert (Hs : s0 = mark_of_turn (turn (game w)))
      by (apply (new_line_holds_the_mark g (row_of box) (col_of box) _ s0);
          auto using valid_shape).
    split; [exact Hs|]. subst s0.
    apply first_complete_Some in Hfc as (pre & l & post & Eso & Hc & _).
    exists g', l. split; [exact Hat'|]. split; [|exact Hc].
    rewrite Eso. apply in_or_app. right. now left.
  - right. destruct (Z.eqb_spec (turn (game w) + 1) 9) as [E9|]; [|discriminate].
    injection Hr as ->. split; [reflexivity|]. split; [lia|].
    exists g'. split; [exact Hat' | exact Hfc].
Qed.

Lemma before_win_world_in_play : in_play before_win_world before_win_grid.
Proof. repeat split; reflexivity. Defined.

Lemma only_the_mover_wins_witness :
  ("X" = "X" /\
   exists g' l, board_at (rows (snd (Game.move 3 before_win_world)))
                  (board (game (snd (Game.move 3 before_win_world)))) g' /\
                In l scan_order /\ complete_with g' l "X") \/
  ("X" = "Tie" /\ turn (game (snd (Game.move 3 before_win_world))) = 9 /\
   exists g', board_at (rows (snd (Game.move 3 before_win_world)))
                (board (game (snd (Game.move 3 before_win_world)))) g' /\
              first_complete g' = None).
Proof.
  apply (only_the_mover_wins before_win_world before_win_grid 3 "X"
           (snd (Game.move 3 before_win_world))
           before_win_world_in_play eq_refl).
  apply pair_of_fst. reflexivity.
Defined.

Lemma full_cells_marked g i j :
  shape3 g = true -> count_empty g = 0%nat -> 0 <= i < 3 -> 0 <= j < 3 ->
  in_XO (cell g i j) = true.
Proof.
  intros H Hc Hi Hj. unfold count_empty in Hc. apply length_zero_iff_nil in Hc.
  destruct (in_XO (cell g i j)) eqn:E; [reflexivity|exfalso].
  assert (Hin : In (i, j) (empties g)).
  { apply in_empties. unfold is_empty. simpl. now rewrite E. }
  rewrite Hc in Hin. destruct Hin.
Qed.

(** X7: a game in play has between 0 and 9 moves behind it; at turn 9
    every call of [Game.move] is refused and changes nothing; the move made
    at turn 8 returns a winner or ['Tie'], never [None]; and before turn 9
    some box is accepted. *)
Theorem game_has_at_most_nine_moves w g :
  in_play w g ->
  0 <= turn (game w) <= 9 /\
  (turn (game w) = 9 ->
   forall box, exists e, Game.move box w = (Raise e, w) /\
                         (e = InvalidBox \/ e = CellOccupied)) /\
  (turn (game w) = 8 ->
   forall box r w', Game.move box w = (Ok r, w') -> exists s, r = Some s) /\
  (turn (game w) < 9 -> exists box r w', Game.move box w = (Ok r, w')).
Proof.
  intros Hp. pose proof Hp as (H & Hv & Ht).
  pose proof (marks_and_empties g (valid_shape _ Hv)) as Hsum.
  split; [lia|]. split; [|split].
  - intros H9 box.
    destruct (move_cases w g box H)
      as [[Hb E] | [(Hb & Ho & E) | (Hb & Ho & _)]]; [eauto | eauto |].
    exfalso. apply Ho. apply occupied_iff; [exact Hb|].
    destruct (box_in_range box Hb).
    apply full_cells_marked; auto using valid_shape. lia.
  - intros H8 box r w' E.
    destruct (in_play_move w g box r w' Hp E) as (_ & _ & -> & _).
    unfold outcome_of. destruct (winner_of _); [eauto|].
    rewrite H8. simpl. eauto.
  - intros Hlt.
    destruct (empties g) as [|[i j] rest] eqn:He.
    { unfold count_empty in Hsum. rewrite He in Hsum. simpl in Hsum. lia. }
    assert (Hin : In (i, j) (empties g)) by (rewrite He; now left).
    apply in_empties in Hin as [[Hi Hj] Hempty]. simpl in Hi, Hj.
    destruct (box_number_unique i j _ Hi Hj eq_refl) as (Hb & Hr & Hc).
    destruct (move_cases w g (Game.get_box_number i j) H)
      as [[Hb' _] | [(_ & Ho & _) | (_ & _ & w' & E & _)]]; [lia | | eauto].
    exfalso. rewrite occupied_iff in Ho by assumption.
    rewrite <- Hr, <- Hc in Ho. unfold is_empty in Hempty. simpl in Hempty.
    rewrite Ho in Hempty. discriminate.
Qed.

Lemma game_has_at_most_nine_moves_witness :
  0 <= turn (game before_win_world) <= 9.
Proof.
  apply (game_has_at_most_nine_moves before_win_world before_win_grid
           before_win_world_in_play).
Defined.

Lemma random_choice_member {A} draw (l : list A) x :
  random_choice draw l = Ok x -> In x l.
Proof.
  unfold random_choice. destruct l as [|a l]; [discriminate|].
  destruct ((a :: l) !! _) as [y|] eqn:E; [|discriminate].
  intros [= <-]. apply list_elem_of_In. eapply list_elem_of_lookup_2. exact E.
Qed.

Lemma random_choice_some {A} draw (l : list A) :
  l <> [] -> exists x, random_choice draw l = Ok x.
Proof.
  intros Hne. unfold random_choice. destruct l as [|a l]; [congruence|].
  destruct ((a :: l) !! (draw mod length (a :: l))%nat) as [y|] eqn:E; [eauto|].
  apply lookup_ge_None in E.
  pose proof (Nat.mod_upper_bound draw (length (a :: l)) ltac:(simpl; lia)). lia.
Qed.

Lemma random_choice_any {A} (l : list A) x :
  In x l -> exists draw, random_choice draw l = Ok x.
Proof.
  intros Hin. apply list_elem_of_In, list_elem_of_lookup in Hin as [k Hk].
  exists k. unfold random_choice. destruct l as [|a l]; [discriminate|].
  rewrite Nat.mod_small by (eapply lookup_lt_Some; exact Hk). now rewrite Hk.
Qed.

Lemma random_move_at draw self w g :
  board_at (rows w) (board (game w)) g ->
  RandomBot.move draw self w
  = match random_choice draw (empties g) with
    | Ok p => (Ok (box_of p), w)
    | Raise e => (Raise e, w)
    | NoResult => (NoResult, w)
    end.
Proof.
  intros H. unfold RandomBot.move. rewrite bind_get_game.
  rewrite (bind_ok _ _ _ _ _ (get_empty_box_positions_at _ _ _ H)).
  unfold bind, lift. now destruct (random_choice draw (empties g)).
Qed.

Lemma empty_box_accepted w g i j :
  board_at (rows w) (board (game w)) g -> In (i, j) (empties g) ->
  exists w',
    Game.move (Game.get_box_number i j) w
    = (Ok (outcome_of (put g i j (mark_of_turn (turn (game w))))
             (turn (game w) + 1)), w') /\
    board_at (rows w') (board (game w'))
      (put g i j (mark_of_turn (turn (game w)))) /\
    turn (game w') = turn (game w) + 1.
Proof.
  intros H Hin. apply in_empties in Hin as [[Hi Hj] He]. simpl in Hi, Hj.
  destruct (box_number_unique i j _ Hi Hj eq_refl) as (Hb & Hr & Hc).
  assert (Hfree : in_XO (cell g (row_of (Game.get_box_number i j))
                           (col_of (Game.get_box_number i j))) = false).
  { rewrite <- Hr, <- Hc. unfold is_empty in He. simpl in He.
    now apply negb_true_iff in He. }
  destruct (move_free _ w g H Hb Hfree) as (w' & E & Hat & _ & Ht & _).
  rewrite <- Hr, <- Hc in E, Hat. eauto.
Qed.

(** X8: [RandomBot.move] changes nothing; when a cell is empty it returns
    the box number of an empty cell, which [Game.move] accepts; each empty
    cell is returned for some draw of the generator; on a full board
    [random.choice] raises [IndexError]. *)
Theorem random_bot_moves_legally draw self w g :
  board_at (rows w) (board (game w)) g ->
  ((exists i j, (0 <= i < 3 /\ 0 <= j < 3) /\ in_XO (cell g i j) = false) ->
   exists i j,
     RandomBot.move draw self w = (Ok (Game.get_box_number i j), w) /\
     (0 <= i < 3 /\ 0 <= j < 3) /\ in_XO (cell g i j) = false /\
     1 <= Game.get_box_number i j <= 9 /\
     exists r w', Game.move (Game.get_box_number i j) w = (Ok r, w')) /\
  ((forall i j, 0 <= i < 3 -> 0 <= j < 3 -> in_XO (cell g i j) = true) ->
   RandomBot.move draw self w = (Raise IndexError, w)) /\
  (forall i j, 0 <= i < 3 -> 0 <= j < 3 -> in_XO (cell g i j) = false ->
   exists draw', RandomBot.move draw' self w = (Ok (Game.get_box_number i j), w)).
Proof.
  intros H. split; [|split].
  - intros (i0 & j0 & Hr0 & Hc0).
    assert (Hne : empties g <> []).
    { intros E. assert (Hin : In (i0, j0) (empties g)).
      { apply in_empties. unfold is_empty. simpl. now rewrite Hc0. }
      rewrite E in Hin. destruct Hin. }
    destruct (random_choice_some draw (empties g) Hne) as ([i j] & Hch).
    pose proof (random_choice_member _ _ _ Hch) as Hin.
    exists i, j. rewrite (random_move_at draw self w g H), Hch.
    split; [reflexivity|].
    pose proof Hin as Hin'. apply in_empties in Hin' as [[Hi Hj] He].
    simpl in Hi, Hj. unfold is_empty in He. simpl in He.
    apply negb_true_iff in He.
    split; [auto|]. split; [exact He|].
    split; [apply (box_number_unique i j _ Hi Hj eq_refl)|].
    destruct (empty_box_accepted w g i j H Hin) as (w' & E & _). eauto.
  - intros Hfull. rewrite (random_move_at draw self w g H).
    destruct (empties g) as [|[i j] rest] eqn:E; [reflexivity|exfalso].
    assert (Hin : In (i, j) (empties g)) by (rewrite E; now left).
    apply in_empties in Hin as [[Hi Hj] He]. simpl in Hi, Hj.
    unfold is_empty in He. simpl in He. rewrite Hfull in He by assumption.
    discriminate.
  - intros i j Hi Hj He.
    assert (Hin : In (i, j) (empties g)).
    { apply in_empties. unfold is_empty. simpl. now rewrite He. }
    destruct (random_choice_any (empties g) (i, j) Hin) as (draw' & Hch).
    exists draw'. now rewrite (random_move_at draw' self w g H), Hch.
Qed.

Lemma random_bot_moves_legally_witness :
  exists draw',
    RandomBot.move draw' (RandomBot.__init__ false) centre_world
    = (Ok (Game.get_box_number 2 2), centre_world).
Proof.
  apply (random_bot_moves_legally 0 (RandomBot.__init__ false) centre_world
           centre_grid centre_world_at); [lia | lia | reflexivity].
Defined.

Lemma unmarked_cell_empties g :
  (exists i j, (0 <= i < 3 /\ 0 <= j < 3) /\ in_XO (cell g i j) = false) <->
  empties g <> [].
Proof.
  split.
  - intros (i & j & Hr & Hc) E.
    assert (Hin : In (i, j) (empties g)).
    { apply in_empties. unfold is_empty. simpl. now rewrite Hc. }
    rewrite E in Hin. destruct Hin.
  - intros Hne. destruct (empties g) as [|[i j] rest] eqn:E; [congruence|].
    assert (Hin : In (i, j) (empties g)) by (rewrite E; now left).
    apply in_empties in Hin as [Hr He]. exists i, j. split; [exact Hr|].
    unfold is_empty in He. simpl in He. now apply negb_true_iff in He.
Qed.

(** X9: the box [MinimaxBot.move] returns is the box of an empty cell, and
    [Game.move] accepts it in the world the search leaves, writing the mark
    of the turn there; on a full board [MinimaxBot.move] returns [None]. *)
Theorem minimax_box_is_accepted fuel self w g :
  board_at (rows w) (board (game w)) g -> valid g = true ->
  in_XO (symbol self) = true -> (9 <= fuel)%nat ->
  ((exists i j, (0 <= i < 3 /\ 0 <= j < 3) /\ in_XO (cell g i j) = false) ->
   exists i j w1 r w2,
     MinimaxBot.move fuel self w = (Ok (Some (Game.get_box_number i j)), w1) /\
     (0 <= i < 3 /\ 0 <= j < 3) /\ in_XO (cell g i j) = false /\
     Game.move (Game.get_box_number i j) w1 = (Ok r, w2) /\
     board_at (rows w2) (board (game w2))
       (put g i j (if Z.even (turn (game w)) then "X" else "O")) /\
     turn (game w2) = turn (game w) + 1) /\
  ((forall i j, 0 <= i < 3 -> 0 <= j < 3 -> in_XO (cell g i j) = true) ->
   fst (MinimaxBot.move fuel self w) = Ok None).
Proof.
  intros H Hv Hsym Hfuel. rewrite (move_at fuel self w g H Hv Hsym Hfuel).
  split.
  - intros Hex. apply unmarked_cell_empties in Hex.
    destruct (best_box_spec self g Hex) as ([i j] & Hbest & Hin & _).
    assert (H1 : board_at (rows (with_copy w g)) (board (game (with_copy w g))) g)
      by (apply board_at_app; exact H).
    destruct (empty_box_accepted (with_copy w g) g i j H1 Hin) as (w2 & E & Hat & Ht).
    exists i, j, (with_copy w g). do 2 eexists.
    rewrite Hbest. split; [reflexivity|].
    pose proof Hin as Hin'. apply in_empties in Hin' as [Hr He].
    unfold is_empty in He. simpl in He, Hr. apply negb_true_iff in He.
    split; [exact Hr|]. split; [exact He|]. split; [exact E|].
    rewrite <- mark_of_turn_even. split; assumption.
  - intros Hfull. simpl. unfold best_box, candidates.
    destruct (empties g) as [|[i j] rest] eqn:E; [reflexivity|exfalso].
    assert (Hne : empties g <> []) by (rewrite E; discriminate).
    apply unmarked_cell_empties in Hne as (i' & j' & [Hi Hj] & Hc).
    rewrite Hfull in Hc by assumption. discriminate.
Qed.

Lemma minimax_box_is_accepted_witness :
  exists i j w1 r w2,
    MinimaxBot.move 9 (MinimaxBot.__init__ false) centre_world
    = (Ok (Some (Game.get_box_number i j)), w1) /\
    Game.move (Game.get_box_number i j) w1 = (Ok r, w2).
Proof.
  destruct (minimax_box_is_accepted 9 (MinimaxBot.__init__ false) centre_world
              centre_grid centre_world_at eq_refl eq_refl ltac:(lia))
    as [Hsome _].
  destruct Hsome as (i & j & w1 & r & w2 & E & _ & _ & Em & _).
  { exists 0, 0. split; [lia | reflexivity]. }
  exists i, j, w1, r, w2. split; assumption.
Defined.

Lemma score_of_three_valued n self :
  forall g sym,
    score_of n self g sym = -10 \/ score_of n self g sym = 0 \/
    score_of n self g sym = 10.
Proof.
  induction n as [|n IH]; intros g sym; cbn [score_of].
  - unfold evaluate_of, MinimaxBot.verdict.
    destruct (first_uniform g) as [c|]; [destruct (String.eqb c _); auto|].
    destruct (full g); auto.
  - unfold evaluate_of, MinimaxBot.verdict.
    destruct (first_uniform g) as [c|]; [destruct (String.eqb c _); auto|].
    destruct (full g); [auto|].
    set (children := map _ (empties g)).
    assert (Hall : forall v, In v children -> v = -10 \/ v = 0 \/ v = 10).
    { intros v Hin. apply in_map_iff in Hin as (p & <- & _). apply IH. }
    destruct children as [|c0 rest] eqn:E.
    + destruct (String.eqb sym (symbol self)); simpl; auto.
    + destruct (String.eqb sym (symbol self)).
      * apply Hall. apply maximum_spec. discriminate.
      * apply Hall. apply minimum_spec. discriminate.
Qed.

(** X10: on a board as the program writes it, [_minimax] returns -10, 0
    or 10 and nothing else. *)
Theorem minimax_scores_are_three_valued fuel self w b g sym :
  board_at (rows w) b g -> valid g = true -> in_XO sym = true ->
  (count_empty g < fuel)%nat ->
  exists v,
    MinimaxBot._minimax fuel self b sym w = (Ok v, w) /\
    (v = -10 \/ v = 0 \/ v = 10).
Proof.
  intros H Hv Hsym Hfuel. exists (score_of (count_empty g) self g sym).
  split; [now apply _minimax_at|]. apply score_of_three_valued.
Qed.

Lemma minimax_scores_are_three_valued_witness :
  exists v,
    MinimaxBot._minimax 9 (MinimaxBot.__init__ false)
      (board (game centre_world)) "O" centre_world = (Ok v, centre_world) /\
    (v = -10 \/ v = 0 \/ v = 10).
Proof.
  apply (minimax_scores_are_three_valued 9 (MinimaxBot.__init__ false)
           centre_world _ centre_grid "O" centre_world_at eq_refl eq_refl).
  vm_compute. lia.
Defined.

Lemma fold_max_opp l :
  forall x, fold_left Z.max (map Z.opp l) (- x) = - fold_left Z.min l x.
Proof.
  induction l as [|a l IH]; intros x; simpl; [reflexivity|].
  rewrite <- Z.opp_min_distr. apply IH.
Qed.

Lemma fold_min_opp l :
  forall x, fold_left Z.min (map Z.opp l) (- x) = - fold_left Z.max l x.
Proof.
  induction l as [|a l IH]; intros x; simpl; [reflexivity|].
  rewrite <- Z.opp_max_distr. apply IH.
Qed.

Lemma maximum_opp l : maximum (map Z.opp l) = - minimum l.
Proof. destruct l; [reflexivity | apply fold_max_opp]. Qed.

Lemma minimum_opp l : minimum (map Z.opp l) = - maximum l.
Proof. destruct l; [reflexivity | apply fold_min_opp]. Qed.

Lemma score_of_opposite n :
  forall g sym,
    valid g = true -> in_XO sym = true ->
    score_of n (MinimaxBot.__init__ true) g sym
    = - score_of n (MinimaxBot.__init__ false) g sym.
Proof.
  induction n as [|n IH]; intros g sym Hv Hsym; cbn [score_of];
    unfold evaluate_of; rewrite (first_uniform_complete g Hv).
  - destruct (first_complete g) as [c|] eqn:Hc.
    + apply first_complete_mark in Hc as [-> | ->]; reflexivity.
    + destruct (full g); reflexivity.
  - destruct (first_complete g) as [c|] eqn:Hc.
    + apply first_complete_mark in Hc as [-> | ->]; reflexivity.
    + destruct (full g); [reflexivity|].
      assert (Hmap :
        map (fun p => score_of n (MinimaxBot.__init__ true) (place g p sym)
                        (MinimaxBot.other sym)) (empties g)
        = map Z.opp
            (map (fun p => score_of n (MinimaxBot.__init__ false) (place g p sym)
                             (MinimaxBot.other sym)) (empties g))).
      { rewrite map_map. apply map_ext_in. intros [i j] Hin.
        apply in_empties in Hin as [[Hi Hj] _]. simpl in Hi, Hj.
        apply IH; [now apply valid_put | apply in_XO_other]. }
      cbv zeta. rewrite Hmap.
      apply in_XO_iff in Hsym as [-> | ->]; simpl.
      * apply maximum_opp.
      * apply minimum_opp.
Qed.

(** X11: the bot playing X and the bot playing O score every position
    oppositely: what [_minimax] returns for one is the negation of what it
    returns for the other, with the same symbol to move. *)
Theorem the_two_bots_score_oppositely fuel w b g sym :
  board_at (rows w) b g -> valid g = true -> in_XO sym = true ->
  (count_empty g < fuel)%nat ->
  exists v,
    MinimaxBot._minimax fuel (MinimaxBot.__init__ true) b sym w = (Ok v, w) /\
    MinimaxBot._minimax fuel (MinimaxBot.__init__ false) b sym w = (Ok (- v), w).
Proof.
  intros H Hv Hsym Hfuel.
  exists (score_of (count_empty g) (MinimaxBot.__init__ true) g sym).
  split; [now apply _minimax_at|].
  rewrite (_minimax_at (MinimaxBot.__init__ false) b fuel w g sym) by assumption.
  rewrite score_of_opposite by assumption. now rewrite Z.opp_involutive.
Qed.

Lemma the_two_bots_score_oppositely_witness :
  exists v,
    MinimaxBot._minimax 9 (MinimaxBot.__init__ true) (board (game centre_world))
      "O" centre_world = (Ok v, centre_world) /\
    MinimaxBot._minimax 9 (MinimaxBot.__init__ false) (board (game centre_world))
      "O" centre_world = (Ok (- v), centre_world).
Proof.
  apply (the_two_bots_score_oppositely 9 centre_world _ centre_grid "O"
           centre_world_at eq_refl eq_refl).
  vm_compute. lia.
Defined.

(** X12: [_evaluate] on the board of the game agrees with [get_winner]:
    it scores 10 exactly when the winner is the bot's symbol, -10 exactly
    when it is the other symbol, 0 exactly when there is no winner and no
    empty cell, and returns [None] exactly when there is no winner and a
    cell is empty. *)
Theorem evaluate_agrees_with_get_winner self w g :
  board_at (rows w) (board (game w)) g -> valid g = true ->
  in_XO (symbol self) = true ->
  exists win ev,
    Game.get_winner w = (Ok win, w) /\
    MinimaxBot._evaluate self (board (game w)) w = (Ok ev, w) /\
    (ev = Some 10 <-> win = Some (symbol self)) /\
    (ev = Some (-10) <-> win = Some (MinimaxBot.other (symbol self))) /\
    (ev = Some 0 <->
       win = None /\
       forall i j, 0 <= i < 3 -> 0 <= j < 3 -> in_XO (cell g i j) = true) /\
    (ev = None <->
       win = None /\
       exists i j, (0 <= i < 3 /\ 0 <= j < 3) /\ in_XO (cell g i j) = false).
Proof.
  intros H Hv Hsym. exists (winner_of g), (evaluate_of self g).
  split; [now apply get_winner_at|]. split; [now apply _evaluate_at|].
  unfold evaluate_of, winner_of. rewrite (first_uniform_complete g Hv).
  assert (Hfull : full g = true <->
                  forall i j, 0 <= i < 3 -> 0 <= j < 3 -> in_XO (cell g i j) = true).
  { split.
    - intros Hf i j Hi Hj. apply full_cells_marked; auto using valid_shape.
      apply full_no_empties; auto using valid_shape.
    - intros Hall. apply no_empties_full; [now apply valid_shape|].
      destruct (empties g) as [|[i j] rest] eqn:E; [reflexivity|exfalso].
      assert (Hne : empties g <> []) by (rewrite E; discriminate).
      apply unmarked_cell_empties in Hne as (i' & j' & [Hi Hj] & Hc).
      rewrite Hall in Hc by assumption. discriminate. }
  assert (Hnotfull : full g = false <->
                     exists i j, (0 <= i < 3 /\ 0 <= j < 3) /\
                                 in_XO (cell g i j) = false).
  { rewrite unmarked_cell_empties. split.
    - intros Hf E. rewrite (no_empties_full g) in Hf; auto using valid_shape.
      discriminate.
    - intros Hne. destruct (full g) eqn:Hf; [|reflexivity]. exfalso. apply Hne.
      apply length_zero_iff_nil. apply full_no_empties; auto using valid_shape. }
  destruct (first_complete g) as [c|] eqn:Hc.
  - unfold MinimaxBot.verdict, MinimaxBot.other.
    apply first_complete_mark in Hc. apply in_XO_iff in Hsym.
    destruct Hc as [-> | ->], Hsym as [-> | ->]; simpl;
      repeat split; intros; try discriminate; try reflexivity;
      try (destruct H0; discriminate).
  - destruct (full g) eqn:Hf.
    + repeat split; intros; try discriminate; try reflexivity.
      * now apply Hfull.
      * destruct H0 as [_ Hex]. apply Hnotfull in Hex. discriminate.
    + repeat split; intros; try discriminate; try reflexivity.
      * destruct H0 as [_ Hall]. apply Hfull in Hall. discriminate.
      * now apply Hnotfull.
Qed.

(** * Games from any position *)

Lemma mark_of_turn_next t : mark_of_turn (t + 1) = MinimaxBot.other (mark_of_turn t).
Proof.
  rewrite !mark_of_turn_even. rewrite Z.add_1_r, Z.even_succ, <- Z.negb_even.
  now destruct (Z.even t).
Qed.

Lemma seated_turns bot hfm t :
  seated bot hfm -> 0 <= t ->
  if t mod 2 =? hfm then mark_of_turn t = MinimaxBot.other (symbol bot)
  else mark_of_turn t = symbol bot.
Proof.
  intros Hseat Ht. unfold mark_of_turn.
  assert (Hm : t mod 2 = 0 \/ t mod 2 = 1)
    by (pose proof (Z.mod_pos_bound t 2 ltac:(lia)); lia).
  destruct Hseat as [[-> ->] | [-> ->]], Hm as [-> | ->]; reflexivity.
Qed.

Lemma game_on_not_over bot g t :
  game_on g t -> evaluate_of bot g = None /\ empties g <> [].
Proof.
  intros (Hv & Hc & Hn & Ht). unfold evaluate_of.
  rewrite (first_uniform_complete g Hv), Hn.
  assert (Hf : full g = false).
  { destruct (full g) eqn:E; [|reflexivity].
    apply full_iff_nine in E; [lia | now apply valid_shape]. }
  rewrite Hf. split; [reflexivity|].
  intros E. rewrite (no_empties_full g) in Hf; auto using valid_shape.
  discriminate.
Qed.

(** Playing the mark of the turn at an empty cell: either the game is over,
    with the outcome [move] returns and the score [_evaluate] gives it, or
    it goes on. *)
Lemma play_at bot g t p :
  in_XO (symbol bot) = true -> game_on g t -> In p (empties g) ->
  let g' := place g p (mark_of_turn t) in
  move_of (box_of p) g t = inr (outcome_of g' (t + 1), g') /\
  match outcome_of g' (t + 1) with
  | Some s => evaluate_of bot g' = Some (payoff bot s)
  | None => game_on g' (t + 1)
  end.
Proof.
  intros Hsym (Hv & Hc & Hn & Ht) Hin. cbv zeta. destruct p as [i j].
  apply in_empties in Hin as [[Hi Hj] He]. simpl in Hi, Hj.
  unfold is_empty in He. simpl in He. apply negb_true_iff in He.
  destruct (box_number_unique i j _ Hi Hj eq_refl) as (Hb & Hr & Hcl).
  unfold place, box_of. simpl.
  set (g' := put g i j (mark_of_turn t)).
  assert (Hv' : valid g' = true)
    by (apply valid_put; auto using in_XO_mark_of_turn).
  assert (Hc' : Z.of_nat (count_marks g') = t + 1).
  { unfold g'. rewrite count_marks_put;
      auto using in_XO_mark_of_turn, valid_shape. lia. }
  split.
  - unfold move_of.
    replace ((Game.get_box_number i j <? 1) || (Game.get_box_number i j >? 9))
      with false by (symmetry; apply orb_false_iff; split; lia).
    rewrite <- Hr, <- Hcl, He. reflexivity.
  - unfold outcome_of, winner_of, evaluate_of.
    rewrite (first_uniform_complete g' Hv').
    destruct (first_complete g') as [s|] eqn:Hfc.
    + unfold MinimaxBot.verdict, payoff.
      destruct (String.eqb s (symbol bot)); [reflexivity|].
      apply first_complete_mark in Hfc as [-> | ->]; reflexivity.
    + destruct (Z.eqb_spec (t + 1) 9) as [E9 | N9].
      * assert (Hf : full g' = true)
          by (apply full_iff_nine; [now apply valid_shape | lia]).
        rewrite Hf. unfold payoff.
        apply in_XO_iff in Hsym as [-> | ->]; reflexivity.
      * repeat split; auto. lia.
Qed.

Lemma move_of_inr box g t r g' :
  move_of box g t = inr (r, g') ->
  In (row_of box, col_of box) (empties g) /\
  box_of (row_of box, col_of box) = box.
Proof.
  unfold move_of. destruct ((box <? 1) || (box >? 9)) eqn:Hr; [discriminate|].
  apply orb_false_iff in Hr. assert (Hb : 1 <= box <= 9) by lia.
  destruct (in_XO (cell g (row_of box) (col_of box))) eqn:Hc; [discriminate|].
  intros _. destruct (box_in_range box Hb). split.
  - apply in_empties. simpl. unfold is_empty. simpl. now rewrite Hc.
  - now apply box_number_of.
Qed.

Lemma move_of_inl box g t e :
  move_of box g t = inl e -> e = InvalidBox \/ e = CellOccupied.
Proof.
  unfold move_of. destruct ((box <? 1) || (box >? 9)); [intros [= <-]; auto|].
  destruct (in_XO _); [intros [= <-]; auto | discriminate].
Qed.

Lemma other_differs sym : in_XO sym = true -> String.eqb (MinimaxBot.other sym) sym = false.
Proof. intros H. apply in_XO_iff in H as [-> | ->]; reflexivity. Qed.

Lemma value_of_finished bot g sym v :
  valid g = true -> in_XO sym = true -> evaluate_of bot g = Some v ->
  minimax_value bot g sym = v.
Proof.
  intros Hv Hsym E. rewrite minimax_value_unfold by assumption. now rewrite E.
Qed.

(** The bot's play secures the minimax value of the position. *)
Lemma secures_value bot hfm n :
  in_XO (symbol bot) = true -> seated bot hfm ->
  forall inputs g t s,
    game_on g t ->
    game_loop_of n bot hfm inputs g t = Ok s ->
    minimax_value bot g (mark_of_turn t) <= payoff bot s.
Proof.
  intros Hsym Hseat. induction n as [|n IH]; intros inputs g t s Hon Hrun;
    [discriminate|].
  cbn [game_loop_of] in Hrun.
  pose proof Hon as (Hv & Hc & _ & _).
  pose proof (seated_turns bot hfm t Hseat ltac:(lia)) as Hturn.
  destruct (game_on_not_over bot g t Hon) as [Hev Hne].
  rewrite minimax_value_unfold by auto using in_XO_mark_of_turn.
  rewrite Hev. cbv zeta.
  set (children := map (fun p => minimax_value bot (place g p (mark_of_turn t))
                                   (MinimaxBot.other (mark_of_turn t)))
                     (empties g)).
  assert (Hchild : forall p inputs1,
    In p (empties g) ->
    match move_of (box_of p) g t with
    | inl e => Raise e
    | inr (Some s', _) => Ok s'
    | inr (None, g') => game_loop_of n bot hfm inputs1 g' (t + 1)
    end = Ok s ->
    minimax_value bot (place g p (mark_of_turn t))
      (MinimaxBot.other (mark_of_turn t)) <= payoff bot s).
  { intros p inputs1 Hin Hgo.
    destruct (play_at bot g t p Hsym Hon Hin) as [Em Hout]. rewrite Em in Hgo.
    assert (Hv' : valid (place g p (mark_of_turn t)) = true).
    { destruct p as [i j]. apply in_empties in Hin as [[Hi Hj] _].
      apply valid_put; auto using in_XO_mark_of_turn. }
    destruct (outcome_of (place g p (mark_of_turn t)) (t + 1)) as [s'|].
    - injection Hgo as ->.
      rewrite (value_of_finished bot _ _ _ Hv' (in_XO_other _) Hout). lia.
    - rewrite <- mark_of_turn_next. now apply (IH inputs1). }
  assert (Hmem : forall p, In p (empties g) ->
    In (minimax_value bot (place g p (mark_of_turn t))
          (MinimaxBot.other (mark_of_turn t))) children)
    by (intros p Hp; unfold children; apply in_map_iff; eauto).
  assert (Hcne : children <> []).
  { unfold children. destruct (empties g); [congruence | discriminate]. }
  destruct (t mod 2 =? hfm).
  - rewrite Hturn at 1. rewrite other_differs by assumption.
    destruct inputs as [|box rest]; [discriminate|].
    destruct (move_of box g t) as [e | [r g']] eqn:Em; [discriminate|].
    destruct (move_of_inr box g t r g' Em) as [Hin Hbox].
    specialize (Hchild _ rest Hin). rewrite Hbox, Em in Hchild.
    specialize (Hchild Hrun).
    pose proof (proj2 (minimum_spec children Hcne) _ (Hmem _ Hin)). lia.
  - rewrite Hturn at 1. rewrite String.eqb_refl.
    destruct (best_box_spec bot g Hne) as (p & Hbest & Hin & Hmax & _).
    rewrite Hbest in Hrun. specialize (Hchild p inputs Hin Hrun).
    destruct (maximum_spec children Hcne) as [Hmin _].
    unfold children in Hmin at 2. apply in_map_iff in Hmin as (q & Hq & Hqin).
    specialize (Hmax q Hqin). unfold candidate in Hmax.
    rewrite <- Hturn in Hmax. lia.
Qed.

(** X16: from any game in play that is not over, whoever is to move and
    whatever boxes the human enters, an outcome of [game_loop] with the
    minimax bot in its seat is worth at least the score [_minimax] gives the
    position: when the score is 10 the bot wins, and when it is 0 or more
    the bot wins or ties. *)
Theorem minimax_secures_the_value n fuel bot human_first_mod inputs w g s w' :
  in_play w g -> first_complete g = None -> turn (game w) < 9 ->
  in_XO (symbol bot) = true -> seated bot human_first_mod ->
  (10 <= fuel)%nat ->
  game_loop_while n fuel bot human_first_mod inputs w = (Ok s, w') ->
  exists v,
    MinimaxBot._minimax fuel bot (board (game w))
      (if Z.even (turn (game w)) then "X" else "O") w = (Ok v, w) /\
    v <= payoff bot s /\
    (v = 10 -> s = symbol bot) /\
    (0 <= v -> s = symbol bot \/ s = "Tie").
Proof.
  intros (H & Hv & Hc) Hnone Ht Hsym Hseat Hfuel Hrun.
  rewrite <- mark_of_turn_even.
  exists (minimax_value bot g (mark_of_turn (turn (game w)))).
  split.
  { apply _minimax_at; auto using in_XO_mark_of_turn.
    pose proof (count_empty_le g). lia. }
  assert (Hpure : game_loop_of n bot human_first_mod inputs g (turn (game w)) = Ok s).
  { rewrite <- (game_loop_while_at n fuel bot human_first_mod Hsym
                  ltac:(lia) inputs w g H Hv).
    now rewrite Hrun. }
  assert (Hle : minimax_value bot g (mark_of_turn (turn (game w))) <= payoff bot s).
  { apply (secures_value bot human_first_mod n Hsym Hseat inputs g _ s);
      [repeat split; assumption | exact Hpure]. }
  split; [exact Hle|]. unfold payoff in *.
  destruct (String.eqb_spec s (symbol bot)) as [-> | Hne].
  - split; auto.
  - destruct (String.eqb_spec s "Tie") as [-> | Hnt]; split; intros; auto; lia.
Qed.

Lemma loop_ends bot hfm n :
  in_XO (symbol bot) = true ->
  forall inputs g t,
    game_on g t -> 9 - t <= Z.of_nat n ->
    (exists s, game_loop_of n bot hfm inputs g t = Ok s) \/
    (exists e, game_loop_of n bot hfm inputs g t = Raise e /\
               (e = EOFError \/ e = InvalidBox \/ e = CellOccupied)).
Proof.
  intros Hsym. induction n as [|n IH]; intros inputs g t Hon Hn.
  { destruct Hon as (_ & _ & _ & Ht). lia. }
  cbn [game_loop_of].
  destruct (game_on_not_over bot g t Hon) as [_ Hne].
  assert (Hchild : forall p inputs1,
    In p (empties g) ->
    (exists s, match move_of (box_of p) g t with
               | inl e => Raise e
               | inr (Some s', _) => Ok s'
               | inr (None, g') => game_loop_of n bot hfm inputs1 g' (t + 1)
               end = Ok s) \/
    (exists e, match move_of (box_of p) g t with
               | inl e => Raise e
               | inr (Some s', _) => Ok s'
               | inr (None, g') => game_loop_of n bot hfm inputs1 g' (t + 1)
               end = Raise e /\
               (e = EOFError \/ e = InvalidBox \/ e = CellOccupied))).
  { intros p inputs1 Hin.
    destruct (play_at bot g t p Hsym Hon Hin) as [Em Hout]. rewrite Em.
    destruct (outcome_of (place g p (mark_of_turn t)) (t + 1)) as [s'|]; [eauto|].
    apply IH; [exact Hout | lia]. }
  destruct (t mod 2 =? hfm).
  - destruct inputs as [|box rest]; [right; eauto|].
    destruct (move_of box g t) as [e | [r g']] eqn:Em.
    + right. exists e. split; [reflexivity|].
      destruct (move_of_inl box g t e Em); auto.
    + destruct (move_of_inr box g t r g' Em) as [Hin Hbox].
      specialize (Hchild _ rest Hin). now rewrite Hbox, Em in Hchild.
  - destruct (best_box_spec bot g Hne) as (p & Hbest & Hin & _).
    rewrite Hbest. now apply Hchild.
Qed.

(** X13: from a game in play that is not over, the loop of [game_loop]
    with the minimax bot stops within as many rounds as there are cells
    left: it ends on an outcome, or on [EOFError] when the input runs out,
    or on [InvalidBox] or [CellOccupied]; it does not run on, and the bot
    is never without a box to play. *)
Theorem game_loop_stops_within_nine_rounds n fuel bot human_first_mod inputs w g :
  in_play w g -> first_complete g = None -> turn (game w) < 9 ->
  in_XO (symbol bot) = true -> (9 <= fuel)%nat ->
  9 - turn (game w) <= Z.of_nat n ->
  (exists s, fst (game_loop_while n fuel bot human_first_mod inputs w) = Ok s) \/
  (exists e, fst (game_loop_while n fuel bot human_first_mod inputs w) = Raise e /\
             (e = EOFError \/ e = InvalidBox \/ e = CellOccupied)).
Proof.
  intros (H & Hv & Hc) Hnone Ht Hsym Hfuel Hn.
  rewrite (game_loop_while_at n fuel bot human_first_mod Hsym Hfuel inputs w g H Hv).
  apply loop_ends; [exact Hsym | repeat split; assumption | exact Hn].
Qed.

Lemma evaluate_agrees_with_get_winner_witness :
  exists win ev,
    Game.get_winner centre_world = (Ok win, centre_world) /\
    MinimaxBot._evaluate (MinimaxBot.__init__ false) (board (game centre_world))
      centre_world = (Ok ev, centre_world) /\
    (ev = Some 10 <-> win = Some "O").
Proof.
  destruct (evaluate_agrees_with_get_winner (MinimaxBot.__init__ false)
              centre_world centre_grid centre_world_at eq_refl eq_refl)
    as (win & ev & Ew & Ee & Hten & _).
  exists win, ev. split; [exact Ew|]. split; [exact Ee | exact Hten].
Defined.

Lemma minimax_secures_the_value_witness :
  exists v,
    MinimaxBot._minimax 10 (MinimaxBot.__init__ true)
      (board (game before_win_world)) "X" before_win_world
    = (Ok v, before_win_world) /\
    v <= payoff (MinimaxBot.__init__ true) "X".
Proof.
  destruct (minimax_secures_the_value 9 10 (MinimaxBot.__init__ true) 1 []
              before_win_world before_win_grid "X"
              (snd (game_loop_while 9 10 (MinimaxBot.__init__ true) 1 []
                      before_win_world))
              before_win_world_in_play eq_refl eq_refl eq_refl
              (or_introl (conj eq_refl eq_refl)) ltac:(lia))
    as (v & E & Hle & _).
  - apply pair_of_fst.
    rewrite (game_loop_while_at 9 10 (MinimaxBot.__init__ true) 1 eq_refl
               ltac:(lia) [] before_win_world before_win_grid);
      [vm_compute; reflexivity | apply before_win_world_in_play | reflexivity].
  - exists v. split; [exact E | exact Hle].
Defined.

Lemma new_world_turn_below_nine : turn (game new_world) < 9.
Proof. reflexivity. Defined.

Lemma game_loop_stops_within_nine_rounds_witness :
  (exists s, fst (game_loop_while 9 9 (MinimaxBot.__init__ false) 0 [5; 5]
                    new_world) = Ok s) \/
  (exists e, fst (game_loop_while 9 9 (MinimaxBot.__init__ false) 0 [5; 5]
                    new_world) = Raise e /\
             (e = EOFError \/ e = InvalidBox \/ e = CellOccupied)).
Proof.
  apply (game_loop_stops_within_nine_rounds 9 9 (MinimaxBot.__init__ false) 0
           [5; 5] new_world fresh_grid new_world_in_play eq_refl
           new_world_turn_below_nine eq_refl);
    [lia | vm_compute; discriminate].
Defined.

(** X17: [Game.move] accepts a box exactly when it is the box number of a
    position that [get_empty_box_positions] lists. *)
Theorem move_accepts_exactly_the_empty_boxes w g box :
  board_at (rows w) (board (game w)) g ->
  (exists r w', Game.move box w = (Ok r, w')) <->
  (exists l i j,
      Game.get_empty_box_positions (board (game w)) w = (Ok l, w) /\
      In (i, j) l /\ Game.get_box_number i j = box).
Proof.
  intros H. rewrite (get_empty_box_positions_at w _ g H). split.
  - intros (r & w' & E).
    destruct (move_ok_cells w g box r w' H E) as (Hb & Hc & _).
    destruct (box_in_range box Hb) as [Hi Hj].
    exists (empties g), (row_of box), (col_of box).
    split; [reflexivity|]. split; [|now apply box_number_of].
    apply in_empties. unfold is_empty. simpl. now rewrite Hc.
  - intros (l & i & j & [= <-] & Hin & <-).
    destruct (empty_box_accepted w g i j H Hin) as (w' & E & _). eauto.
Qed.

Lemma move_accepts_exactly_the_empty_boxes_witness :
  (exists r w', Game.move 1 centre_world = (Ok r, w')) <->
  (exists l i j,
      Game.get_empty_box_positions (board (game centre_world)) centre_world
      = (Ok l, centre_world) /\
      In (i, j) l /\ Game.get_box_number i j = 1).
Proof.
  apply (move_accepts_exactly_the_empty_boxes centre_world centre_grid 1
           centre_world_at).
Defined.

(** A move in a game that is not over: it is refused and changes nothing,
    or it ends the game, or the game goes on with one more mark. *)
Lemma move_on_game bot w g box :
  in_XO (symbol bot) = true ->
  board_at (rows w) (board (game w)) g -> game_on g (turn (game w)) ->
  (exists e, Game.move box w = (Raise e, w) /\
             (e = InvalidBox \/ e = CellOccupied) /\
             ~ In (row_of box, col_of box) (empties g)) \/
  (exists s w', Game.move box w = (Ok (Some s), w')) \/
  (exists w' g', Game.move box w = (Ok None, w') /\
                 board_at (rows w') (board (game w')) g' /\
                 game_on g' (turn (game w')) /\
                 turn (game w') = turn (game w) + 1).
Proof.
  intros Hsym H Hon. pose proof Hon as (Hv & _).
  pose proof (move_of_at w g box H Hv) as Hm.
  destruct (move_of box g (turn (game w))) as [e | [r g']] eqn:Em.
  - left. exists e. split; [exact Hm|]. split; [now apply move_of_inl in Em|].
    intros Hin. destruct (play_at bot g _ _ Hsym Hon Hin) as [Em' _].
    unfold move_of in Em, Em'. unfold box_of in Em'. simpl in Em'.
    apply in_empties in Hin as [[Hi Hj] He]. simpl in Hi, Hj.
    unfold is_empty in He. simpl in He. apply negb_true_iff in He.
    destruct ((box <? 1) || (box >? 9)) eqn:Hr.
    + unfold row_of, col_of in Hi, Hj. apply orb_true_iff in Hr.
      assert (Hbad : box < 1 \/ box > 9) by (destruct Hr; lia).
      clear - Hbad Hi Hj. Z.to_euclidean_division_equations. lia.
    + rewrite He in Em. discriminate.
  - destruct (move_of_inr box g _ r g' Em) as [Hin Hbox].
    destruct (play_at bot g _ _ Hsym Hon Hin) as [Em' Hout].
    rewrite Hbox, Em in Em'. injection Em' as -> ->.
    destruct Hm as (w' & E & Hat & _ & Ht).
    destruct (outcome_of _ (turn (game w) + 1)) as [s|]; right; [left; eauto|].
    right. exists w'. eexists. split; [exact E|]. split; [exact Hat|].
    rewrite Ht. split; [exact Hout | reflexivity].
Qed.

Lemma bot_move_at smart fuel draw bot w g :
  in_XO (symbol bot) = true -> (9 <= fuel)%nat ->
  board_at (rows w) (board (game w)) g -> game_on g (turn (game w)) ->
  exists p w1,
    bot_move smart fuel draw bot w = (Ok (Some (box_of p)), w1) /\
    In p (empties g) /\
    board_at (rows w1) (board (game w1)) g /\ game w1 = game w.
Proof.
  intros Hsym Hfuel H Hon. pose proof Hon as (Hv & _).
  destruct (game_on_not_over bot g _ Hon) as [_ Hne].
  unfold bot_move. destruct smart.
  - destruct (best_box_spec bot g Hne) as (p & Hbest & Hin & _).
    exists p, (with_copy w g).
    rewrite (move_at fuel bot w g H Hv Hsym Hfuel), Hbest.
    split; [reflexivity|]. split; [exact Hin|]. split; [|reflexivity].
    exact (board_at_app (rows w) (board (game w)) g g H).
  - destruct (random_choice_some draw (empties g) Hne) as (p & Hch).
    exists p, w.
    erewrite bind_ok by (rewrite (random_move_at draw bot w g H), Hch; reflexivity).
    split; [reflexivity|]. split; [now apply random_choice_member in Hch|].
    split; [exact H | reflexivity].
Qed.

Lemma position_of_box p :
  In p positions -> (row_of (box_of p), col_of (box_of p)) = p.
Proof.
  destruct p as [i j]. intros Hin. apply in_positions in Hin as [Hi Hj].
  destruct (box_number_unique i j _ Hi Hj eq_refl) as (_ & Hr & Hc).
  unfold box_of. simpl. now rewrite <- Hr, <- Hc.
Qed.

(** X14: the same for [game_loop] with either bot and with inputs that are
    no integers, each of which costs one more round: the loop stops, on an
    outcome, on [EOFError], on [InvalidBox] or on [CellOccupied]; no other
    error arises, neither the [IndexError] of [random.choice] nor the
    [TypeError] of a missing box. *)
Theorem game_loop_ends_for_either_bot n fuel smart bot human_first_mod draws :
  in_XO (symbol bot) = true -> (9 <= fuel)%nat ->
  forall inputs w g,
    board_at (rows w) (board (game w)) g -> game_on g (turn (game w)) ->
    9 - turn (game w) + Z.of_nat (unreadable inputs) <= Z.of_nat n ->
    (exists s, fst (game_loop_rounds n fuel smart bot human_first_mod inputs
                      draws w) = Ok s) \/
    (exists e, fst (game_loop_rounds n fuel smart bot human_first_mod inputs
                      draws w) = Raise e /\
               (e = EOFError \/ e = InvalidBox \/ e = CellOccupied)).
Proof.
  intros Hsym Hfuel. induction n as [|n IH]; intros inputs w g H Hon Hn.
  { destruct Hon as (_ & _ & _ & Ht). lia. }
  cbn [game_loop_rounds]. rewrite bind_get_game.
  destruct (turn (game w) mod 2 =? human_first_mod).
  - destruct inputs as [|[box|] rest].
    + right. exists EOFError. auto.
    + destruct (move_on_game bot w g box Hsym H Hon)
        as [(e & E & He & _) | [(s & w' & E) | (w' & g' & E & Hat & Hon' & Ht)]].
      * right. exists e. rewrite (bind_raise _ _ _ _ _ E). auto.
      * left. exists s. now rewrite (bind_ok _ _ _ _ _ E).
      * rewrite (bind_ok _ _ _ _ _ E). apply (IH rest w' g' Hat Hon').
        unfold unreadable in *. simpl in Hn. lia.
    + apply (IH rest w g H Hon). unfold unreadable in *. simpl in Hn. lia.
  - destruct (bot_move_at smart fuel (draws n) bot w g Hsym Hfuel H Hon)
      as (p & w1 & Eb & Hin & H1 & Hg).
    rewrite (bind_ok _ _ _ _ _ Eb).
    assert (Hon1 : game_on g (turn (game w1))) by now rewrite Hg.
    destruct (move_on_game bot w1 g (box_of p) Hsym H1 Hon1)
      as [(e & _ & _ & Hno) | [(s & w' & E) | (w' & g' & E & Hat & Hon' & Ht)]].
    * exfalso. apply Hno. rewrite position_of_box; [exact Hin|].
      apply in_empties in Hin as [Hr _]. destruct p. now apply in_positions.
    * left. exists s. now rewrite (bind_ok _ _ _ _ _ E).
    * rewrite (bind_ok _ _ _ _ _ E). apply (IH inputs w' g' Hat Hon').
      rewrite Ht, Hg. lia.
Qed.

Lemma new_world_game_on : game_on fresh_grid (turn (game new_world)).
Proof. repeat split; reflexivity. Defined.

Lemma game_loop_ends_for_either_bot_witness :
  (exists s, fst (game_loop_rounds 10 9 false (RandomBot.__init__ false) 0
                    [None; Some 5] (fun k => k) new_world) = Ok s) \/
  (exists e, fst (game_loop_rounds 10 9 false (RandomBot.__init__ false) 0
                    [None; Some 5] (fun k => k) new_world) = Raise e /\
             (e = EOFError \/ e = InvalidBox \/ e = CellOccupied)).
Proof.
  apply (game_loop_ends_for_either_bot 10 9 false (RandomBot.__init__ false) 0
           (fun k => k) eq_refl ltac:(lia) [None; Some 5] new_world fresh_grid).
  - apply new_world_in_play.
  - exact new_world_game_on.
  - vm_compute. discriminate.
Defined.

(** X15: with the minimax bot, a run of the loop that ends on an outcome is
    a run on the inputs that are integers alone, in no more rounds: an input
    that is no integer changes neither the outcome nor the world the game
    ends in. *)
Theorem unreadable_inputs_change_nothing n fuel bot human_first_mod draws :
  forall inputs w s w',
    game_loop_rounds n fuel true bot human_first_mod inputs draws w = (Ok s, w') ->
    exists n',
      (n' <= n)%nat /\
      game_loop_while n' fuel bot human_first_mod (readable inputs) w = (Ok s, w').
Proof.
  induction n as [|n IH]; intros inputs w s w' Hrun; [discriminate|].
  cbn [game_loop_rounds] in Hrun. rewrite bind_get_game in Hrun.
  destruct (turn (game w) mod 2 =? human_first_mod) eqn:Hturn.
  - destruct inputs as [|[box|] rest]; [discriminate| |].
    + destruct (Game.move box w) as [[[s1|]|e|] w1] eqn:Em.
      * rewrite (bind_ok _ _ _ _ _ Em) in Hrun. exists 1%nat. split; [lia|].
        cbn [game_loop_while readable flat_map app]. rewrite bind_get_game, Hturn.
        now rewrite (bind_ok _ _ _ _ _ Em).
      * rewrite (bind_ok _ _ _ _ _ Em) in Hrun.
        destruct (IH rest w1 s w' Hrun) as (n' & Hle & Hwhile).
        exists (S n'). split; [lia|].
        cbn [game_loop_while readable flat_map app]. rewrite bind_get_game, Hturn.
        now rewrite (bind_ok _ _ _ _ _ Em).
      * rewrite (bind_raise _ _ _ _ _ Em) in Hrun. discriminate.
      * unfold bind in Hrun. rewrite Em in Hrun. discriminate.
    + destruct (IH rest w s w' Hrun) as (n' & Hle & Hwhile).
      exists n'. split; [lia | exact Hwhile].
  - unfold bot_move in Hrun.
    destruct (MinimaxBot.move fuel bot w) as [[[box|]|e|] w1] eqn:Eb.
    + rewrite (bind_ok _ _ _ _ _ Eb) in Hrun.
      destruct (Game.move box w1) as [[[s1|]|e|] w2] eqn:Em.
      * rewrite (bind_ok _ _ _ _ _ Em) in Hrun. exists 1%nat. split; [lia|].
        cbn [game_loop_while]. rewrite bind_get_game, Hturn.
        rewrite (bind_ok _ _ _ _ _ Eb). now rewrite (bind_ok _ _ _ _ _ Em).
      * rewrite (bind_ok _ _ _ _ _ Em) in Hrun.
        destruct (IH inputs w2 s w' Hrun) as (n' & Hle & Hwhile).
        exists (S n'). split; [lia|].
        cbn [game_loop_while]. rewrite bind_get_game, Hturn.
        rewrite (bind_ok _ _ _ _ _ Eb). now rewrite (bind_ok _ _ _ _ _ Em).
      * rewrite (bind_raise _ _ _ _ _ Em) in Hrun. discriminate.
      * unfold bind in Hrun. rewrite Em in Hrun. discriminate.
    + rewrite (bind_ok _ _ _ _ _ Eb) in Hrun. discriminate.
    + rewrite (bind_raise _ _ _ _ _ Eb) in Hrun. discriminate.
    + unfold bind in Hrun. rewrite Eb in Hrun. discriminate.
Qed.

Lemma unreadable_inputs_change_nothing_witness :
  exists n',
    (n' <= 9)%nat /\
    game_loop_while n' 9 (MinimaxBot.__init__ false) 0
      (readable [None; Some 3]) before_win_world
    = (Ok "X", snd (game_loop_rounds 9 9 true (MinimaxBot.__init__ false) 0
                      [None; Some 3] (fun k => k) before_win_world)).
Proof.
  apply (unreadable_inputs_change_nothing 9 9 (MinimaxBot.__init__ false) 0
           (fun k => k) [None; Some 3] before_win_world "X").
  apply pair_of_fst. vm_compute. reflexivity.
Defined.
